(** * Verification of [find_suggested_phrases.py]

    A shallow embedding of the abbreviation synthesis engine
    (candidate generation, greedy assignment, n-gram counting and phrase
    ranking) together with the properties stated about it.

    Conventions of the embedding:
    - a Python [str] is a [string]; its characters are the code points
      below 256;
    - a Python [int] is a [Z];
    - a [dict] with [str] keys is a [gmap string _], a [set] of [str] is a
      [gset string], a [Counter] keyed by token tuples is a
      [gmap (list string) Z];
    - a raised exception is the [Raise] outcome of the [result] monad;
    - the two objects that [match_abbrevs_to_phrases] mutates in place (the
      module-level [BLACKLIST] set and the dict passed as [presets]) live in
      an explicit [store] that is threaded through the call. *)

From Stdlib Require Import ZArith String Ascii DecimalString Lia.
From stdpp Require Import base option list list_numbers sorting.
From stdpp Require Import gmap sets strings.

Local Open Scope Z_scope.

(** ** Python primitives used by the module *)

Module Py.

(** *** Exceptions *)

Inductive exn : Set := IndexError.

Inductive result (A : Type) : Type :=
| Ok (a : A)
| Raise (e : exn).
Global Arguments Ok {A} a.
Global Arguments Raise {A} e.

Global Instance result_ret : MRet result := @Ok.
Global Instance result_bind : MBind result := λ A B f m,
  match m with
  | Ok a => f a
  | Raise e => Raise e
  end.

Definition succeeds {A} (m : result A) : Prop := ∃ a, m = Ok a.

(** *** Sequences: [len], indexing and slicing *)

Definition chars (s : string) : list ascii := String.list_ascii_of_string s.
Definition str (l : list ascii) : string := String.string_of_list_ascii l.

Definition len (s : string) : Z := Z.of_nat (String.length s).

(** [l[i]]: a negative index counts from the end, an index outside
    [-len .. len-1] raises [IndexError]. *)
Definition list_getitem {A} (l : list A) (i : Z) : result A :=
  let n := Z.of_nat (length l) in
  let j := if i <? 0 then i + n else i in
  if (j <? 0) || (n <=? j) then Raise IndexError
  else match l !! Z.to_nat j with
       | Some x => Ok x
       | None => Raise IndexError
       end.

(** [s[i]] on a [str] is the one-character string at that index. *)
Definition getitem (s : string) (i : Z) : result string :=
  c ← list_getitem (chars s) i; Ok (String c EmptyString).

(** A slice bound is clamped into [0 .. len], never an error. *)
Definition slice_bound (n i : Z) : Z :=
  if i <? 0 then Z.max 0 (i + n) else Z.min i n.

(** [l[start:stop]], a missing bound being [None]. *)
Definition list_slice {A} (l : list A) (start stop : option Z) : list A :=
  let n := Z.of_nat (length l) in
  let lo := from_option (slice_bound n) 0 start in
  let hi := from_option (slice_bound n) n stop in
  take (Z.to_nat (hi - lo)) (drop (Z.to_nat lo) l).

Definition slice (s : string) (start stop : option Z) : string :=
  str (list_slice (chars s) start stop).

(** *** [str] methods *)

(** [str.isspace] on one character: TAB..CR, FS..US, SPACE, NEL, NBSP. *)
Definition isspace (c : ascii) : bool :=
  let n := N_of_ascii c in
  (((9 <=? n) && (n <=? 13)) || ((28 <=? n) && (n <=? 32))
   || (n =? 133) || (n =? 160))%N.

(** [s.split()]: the maximal runs of non-whitespace characters. *)
Fixpoint split (s : string) : list string :=
  match s with
  | EmptyString => []
  | String c s' =>
      if isspace c then split s'
      else match s' with
           | EmptyString => [String c EmptyString]
           | String c' _ =>
               if isspace c' then String c EmptyString :: split s'
               else match split s' with
                    | w :: ws => String c w :: ws
                    | [] => [String c EmptyString]
                    end
           end
  end.

(** [s.replace] of the space by the empty string: every space character is
    dropped. *)
Fixpoint replace_space_empty (s : string) : string :=
  match s with
  | EmptyString => EmptyString
  | String c s' =>
      if Ascii.eqb c " " then replace_space_empty s'
      else String c (replace_space_empty s')
  end.

(** [sep.join(l)]. *)
Definition join (sep : string) (l : list string) : string :=
  String.concat sep l.

End Py.

Import Py.

(** ** [get_possible_abbrevs] *)

(** [a + b] on two expressions that may each raise, evaluated left to right. *)
Definition add (a b : result string) : result string :=
  x ← a; y ← b; Ok (x +:+ y).

(** A list display [[e1, e2, ...]]: the elements are evaluated in order. *)
Definition display {A} (es : list (result A)) : result (list A) := mapM id es.

Definition get_possible_abbrevs (phrase : string) : result (list string) :=
  if len phrase <? 2 then Ok [phrase]
  else
    let words := split phrase in
    out ←
      (if 1 <? Z.of_nat (length words) then
         acronym ← mapM (λ w, getitem w 0) words;
         display
           [ Ok (join EmptyString acronym);
             add (w ← list_getitem words 0; getitem w 0)
                 (w ← list_getitem words 1; getitem w 0);
             add (w ← list_getitem words 0; Ok (slice w None (Some 2)))
                 (w ← list_getitem words 1; getitem w 0) ]
       else Ok []);
    let phrase := replace_space_empty phrase in
    rest ←
      display
        [ getitem phrase 0;
          add (getitem phrase 0) (getitem phrase (-1));
          Ok (slice phrase None (Some 2));
          getitem phrase 1;
          getitem phrase (-1);
          getitem phrase 1;
          Ok (slice phrase None (Some 3));
          add (Ok (slice phrase None (Some 2))) (getitem phrase (-1));
          add (getitem phrase 0) (Ok (slice phrase (Some (-2)) None));
          Ok (slice phrase None (Some 4));
          add (Ok (slice phrase None (Some 2)))
              (Ok (slice phrase (Some (-2)) None)) ];
    Ok (out ++ rest).

(** ** [match_abbrevs_to_phrases] *)

(** A row of the ranked list: [(score, phrase, phrase_len, count)]. *)
Definition row : Type := Z * string * Z * Z.

(** The objects the function works on.  [abbrev_set = BLACKLIST] and
    [shortcut_dict = presets] bind new names to the same objects, so every
    [add] and every item assignment below lands in the caller's set and
    dict; the dict returned is the object [presets].  [stdout] collects the
    lines printed. *)
Record store : Type := Store {
  BLACKLIST : gset string;
  presets : gmap string string;
  stdout : list string
}.

Definition abbrev_set_add (v : string) (σ : store) : store :=
  {| BLACKLIST := {[v]} ∪ BLACKLIST σ;
     presets := presets σ;
     stdout := stdout σ |}.

Definition shortcut_dict_setitem (phrase abbrev : string) (σ : store)
    : store :=
  {| BLACKLIST := BLACKLIST σ;
     presets := <[phrase := abbrev]> (presets σ);
     stdout := stdout σ |}.

Definition print (line : string) (σ : store) : store :=
  {| BLACKLIST := BLACKLIST σ;
     presets := presets σ;
     stdout := stdout σ ++ [line] |}.

(** [f"{score}"] for an [int]. *)
Definition format_int (n : Z) : string :=
  DecimalString.NilZero.string_of_int (Z.to_int n).

(** [f"warning, no abbrev for {phrase} with score {score}"]. *)
Definition warning (score : Z) (phrase : string) : string :=
  "warning, no abbrev for " +:+ phrase +:+ " with score " +:+ format_int score.

(** The inner [for abbrev in posssible_abbrevs: ... break / else: print]. *)
Fixpoint try_abbrevs (score : Z) (phrase : string)
    (posssible_abbrevs : list string) (σ : store) : store :=
  match posssible_abbrevs with
  | [] =>
      print (warning score phrase) σ
  | abbrev :: rest =>
      if bool_decide (abbrev ∉ BLACKLIST σ) && (len abbrev <? len phrase - 1)
      then shortcut_dict_setitem phrase abbrev (abbrev_set_add abbrev σ)
      else try_abbrevs score phrase rest σ
  end.

(** The body of [for row in results]. *)
Definition assign_row (r : row) (σ : store) : result store :=
  let '(score, phrase, _, _) := r in
  match presets σ !! phrase with
  | Some _ => Ok σ
  | None =>
      posssible_abbrevs ← get_possible_abbrevs phrase;
      Ok (try_abbrevs score phrase posssible_abbrevs σ)
  end.

Fixpoint assign_rows (results : list row) (σ : store) : result store :=
  match results with
  | [] => Ok σ
  | r :: rest => σ' ← assign_row r σ; assign_rows rest σ'
  end.

(** [for _, v in shortcut_dict.items(): abbrev_set.add(v)]. *)
Definition seed_abbrev_set (σ : store) : store :=
  foldl (λ σ kv, abbrev_set_add kv.2 σ) σ (map_to_list (presets σ)).

(** The call [match_abbrevs_to_phrases(results, presets)] run in store [σ];
    the value returned is the dict [presets] of the final store.  A call
    that raises is [Raise]: what it had written by then is not tracked. *)
Definition match_abbrevs_to_phrases (results : list row) (σ : store)
    : result store :=
  assign_rows results (seed_abbrev_set σ).

(** ** [corpus_to_ngrams] *)

(** [nltk.util.ngrams(sequence, n)] without padding: the contiguous windows
    of [n] items, left to right. *)
Fixpoint ngrams {A} (sequence : list A) (n : nat) : list (list A) :=
  match sequence with
  | [] => []
  | _ :: rest =>
      if decide (n ≤ length sequence)%nat
      then take n sequence :: ngrams rest n
      else []
  end.

(** [Counter(iterable)]: how often each item occurs. *)
Definition Counter (items : list (list string)) : gmap (list string) Z :=
  foldl (λ c k, <[k := default 0 (c !! k) + 1]> c) ∅ items.

(** [c.update(d)] for a [Counter] [d]: counts are added key by key. *)
Definition update (c d : gmap (list string) Z) : gmap (list string) Z :=
  union_with (λ x y, Some (x + y)) c d.

(** The body of [for line in corpus]. *)
Definition count_line (max_n : Z) (all_counts : gmap (list string) Z)
    (line : string) : gmap (list string) Z :=
  let tokenized := split line in
  foldl (λ all_counts n,
           let gram := ngrams tokenized (Z.to_nat n) in
           update all_counts (Counter gram))
        all_counts (seqZ 1 max_n).

Definition corpus_to_ngrams (corpus : list string) (max_n : Z)
    : gmap (list string) Z :=
  foldl (count_line max_n) ∅ corpus.

(** ** [get_best_phrases_to_shorten] *)

(** Tuple comparison is lexicographic: the first components decide unless
    they are equal. *)
Definition lex (o1 o2 : comparison) : comparison :=
  match o1 with
  | Eq => o2
  | _ => o1
  end.

Definition pair_compare {A B} (ca : A → A → comparison)
    (cb : B → B → comparison) (x y : A * B) : comparison :=
  lex (ca x.1 y.1) (cb x.2 y.2).

(** Rows compare as 4-tuples: [int]s by value, [str]s by code point. *)
Definition row_compare : row → row → comparison :=
  pair_compare (pair_compare (pair_compare Z.compare String.compare) Z.compare)
               Z.compare.

Definition row_ltb (x y : row) : bool :=
  match row_compare x y with Lt => true | _ => false end.

(** [sorted(l, reverse=True)]: descending, equal items keep their order. *)
Fixpoint insert_reverse (x : row) (l : list row) : list row :=
  match l with
  | [] => [x]
  | y :: l' => if row_ltb x y then y :: insert_reverse x l' else x :: l
  end.

Definition sorted_reverse (l : list row) : list row :=
  foldr insert_reverse [] l.

(** One iteration of [for phrase_tuple, count in phrase_counts.items()]:
    the row appended, if any. *)
Definition phrase_row (item : list string * Z) : option row :=
  let '(phrase_tuple, count) := item in
  if count <=? 3 then None
  else
    let phrase := join " " phrase_tuple in
    let phrase_len := len phrase in
    if phrase_len <? 2 then None
    else
      let avg_shortcut_len := 2 in
      let score := (phrase_len - avg_shortcut_len) * count in
      Some (score, phrase, phrase_len, count).

(** The items of the counter are visited in the order [map_to_list] gives;
    the order of a Python [dict] may differ, which the sort makes
    immaterial ([SortFacts.get_best_phrases_to_shorten_items]). *)
Definition get_best_phrases_to_shorten (phrase_counts : gmap (list string) Z)
    (n_to_keep : Z) : list row :=
  let phrase_data := omap phrase_row (map_to_list phrase_counts) in
  let phrase_data := sorted_reverse phrase_data in
  list_slice phrase_data None (Some n_to_keep).

(** ** The candidate order as the specification words it *)

(** The first [k] characters of [s] (all of [s] when it is shorter). *)
Definition first_chars (k : nat) (s : string) : string :=
  str (take k (chars s)).

(** The last [k] characters of [s] (all of [s] when it is shorter). *)
Definition last_chars (k : nat) (s : string) : string :=
  str (reverse (take k (reverse (chars s)))).

(** The character after the first [i] characters of [s]. *)
Definition char_at (i : nat) (s : string) : string :=
  str (take 1 (drop i (chars s))).

(** Step 1 of the specification: only for a phrase of more than one word. *)
Definition multi_word_candidates (words : list string) : list string :=
  match words with
  | w0 :: w1 :: _ =>
      [ join EmptyString (first_chars 1 <$> words);
        first_chars 1 w0 +:+ first_chars 1 w1;
        first_chars 2 w0 +:+ first_chars 1 w1 ]
  | _ => []
  end.

(** Step 2 of the specification, on the space-removed form [whole]. *)
Definition concatenated_candidates (whole : string) : list string :=
  [ first_chars 1 whole;
    first_chars 1 whole +:+ last_chars 1 whole;
    first_chars 2 whole;
    char_at 1 whole;
    last_chars 1 whole;
    char_at 1 whole;
    first_chars 3 whole;
    first_chars 2 whole +:+ last_chars 1 whole;
    first_chars 1 whole +:+ last_chars 2 whole;
    first_chars 4 whole;
    first_chars 2 whole +:+ last_chars 2 whole ].

(** The candidate list of a phrase given by its word tokens. *)
Definition candidates_in_order (words : list string) : list string :=
  multi_word_candidates words
  ++ concatenated_candidates (join EmptyString words).

(** No character of [w] is whitespace. *)
Fixpoint no_space (w : string) : bool :=
  match w with
  | EmptyString => true
  | String c w' => negb (isspace c) && no_space w'
  end.

(** A word token: non-empty and free of whitespace. *)
Definition is_token (w : string) : bool :=
  match w with
  | EmptyString => false
  | String _ _ => no_space w
  end.

(** A phrase string: word tokens joined by single spaces. *)
Definition phrase_of (tokens : list string) : string := join " " tokens.

(** ** [match_to_prev_abbrevs] *)

(** Modelled from the spec: the phrase without its trailing "s", if it has
    one (the "existing key plus a trailing s" test of section 4.5 looks this
    prefix up among the keys). *)
Fixpoint strip_trailing_s (phrase : string) : option string :=
  match phrase with
  | EmptyString => None
  | String c rest =>
      match rest with
      | EmptyString => if Ascii.eqb c "s" then Some EmptyString else None
      | String _ _ => String c <$> strip_trailing_s rest
      end
  end.

(** Modelled from the spec: [match_to_prev_abbrevs] is imported from
    [find_suggested_phrases] by [test_compress.py], but the source file does
    not define it.  Following section 4.5: first the pluralization heuristic
    (the phrase is an existing key plus a trailing "s": that key's
    abbreviation with "s" appended), then the compositional heuristic (every
    word of the phrase is a key: the first characters of the words'
    abbreviations, in word order), otherwise the no-match signal [None]. *)
Definition match_to_prev_abbrevs (shortcuts : gmap string string)
    (phrase : string) : option string :=
  match strip_trailing_s phrase ≫= (λ key, shortcuts !! key) with
  | Some abbrev => Some (abbrev +:+ "s")
  | None =>
      match mapM (λ w, shortcuts !! w) (split phrase) with
      | Some abbrevs => Some (join EmptyString (first_chars 1 <$> abbrevs))
      | None => None
      end
  end.

(** ** The assignment loop as a transition system *)

(** What processing one row does to the set and the dict: nothing, or one
    new abbreviation that was free and short enough. *)
Inductive step (σ σ' : store) : Prop :=
| step_keep :
    BLACKLIST σ' = BLACKLIST σ →
    presets σ' = presets σ →
    step σ σ'
| step_assign (phrase abbrev : string) :
    presets σ !! phrase = None →
    abbrev ∉ BLACKLIST σ →
    len abbrev ≤ len phrase - 2 →
    BLACKLIST σ' = {[abbrev]} ∪ BLACKLIST σ →
    presets σ' = <[phrase := abbrev]> (presets σ) →
    step σ σ'.

(** The state of the two objects during a call started with the set [bl0]
    and the dict [p0]. *)
Record inv (bl0 : gset string) (p0 : gmap string string) (σ : store) : Prop := {
  inv_presets : p0 ⊆ presets σ;
  inv_used : ∀ x, x ∈ BLACKLIST σ ↔ x ∈ bl0 ∨ ∃ p, presets σ !! p = Some x;
  inv_new : ∀ p a,
    presets σ !! p = Some a → p0 !! p = None →
    (a ∉ bl0) ∧ len a ≤ len p - 2 ∧ ∀ q, q ≠ p → presets σ !! q ≠ Some a
}.

(** The test of the inner loop: the candidate is free and saves at least two
    characters. *)
Definition usable (σ : store) (phrase abbrev : string) : Prop :=
  (abbrev ∉ BLACKLIST σ) ∧ len abbrev < len phrase - 1.

(** Two stores with the same set and the same dict; only what was printed
    so far may differ. *)
Definition same_tables (σ τ : store) : Prop :=
  BLACKLIST σ = BLACKLIST τ ∧ presets σ = presets τ.

(** The n-grams of one line, counted on their own. *)
Definition line_counts (max_n : Z) (line : string) : gmap (list string) Z :=
  count_line max_n ∅ line.

(** The abbreviations in use when a call starts: the Blacklist and the
    values of the Preset Table. *)
Definition used_before (σ : store) (abbrev : string) : Prop :=
  abbrev ∈ BLACKLIST σ ∨ ∃ p, presets σ !! p = Some abbrev.

(** The invariant of the Shortcut Registry against a blacklist: distinct
    phrases have distinct abbreviations, none of them blacklisted. *)
Definition registry_ok (blacklist : gset string)
    (registry : gmap string string) : Prop :=
  ∀ P1 P2 A1 A2,
    P1 ≠ P2 →
    registry !! P1 = Some A1 →
    registry !! P2 = Some A2 →
    A1 ≠ A2 ∧ (A1 ∉ blacklist) ∧ (A2 ∉ blacklist).

(** A comparison function that decides a total order. *)
Class TotalCompare {A} (cmp : A → A → comparison) : Prop := {
  cmp_eq x y : cmp x y = Eq → x = y;
  cmp_refl x : cmp x x = Eq;
  cmp_opp x y : cmp y x = CompOpp (cmp x y);
  cmp_trans x y z : cmp x y = Lt → cmp y z = Lt → cmp x z = Lt
}.

(** [x] may stand before [y] in a list sorted in reverse. *)
Definition row_ge (x y : row) : Prop := row_ltb x y = false.

(** ** Tables for the instances *)

(** [input_phrases] of [test_match_abbrevs]. *)
Definition input_phrases : list row :=
  [(100, "zzz", 0, 0); (90, "zzzzz", 0, 0); (80, "zz xx", 0, 0)].

(** Tables with what [test_presets] asserts ("a" blacklisted, "again"
    preset) and "z" blacklisted. *)
Definition tables : store :=
  {| BLACKLIST := {["a"; "z"]};
     presets := {["again" := "ag"]};
     stdout := [] |}.

(** The store after [match_abbrevs_to_phrases(input_phrases, presets)]. *)
Definition tables_after : store :=
  {| BLACKLIST := {["a"; "z"; "ag"; "zz"; "zx"]};
     presets := {["again" := "ag"; "zzzzz" := "zz"; "zz xx" := "zx"]};
     stdout := ["warning, no abbrev for zzz with score 100"] |}.

(** ** More Python primitives *)

Module PyText.

(** [s.split(" ")]: cut at every space; empty pieces are kept and the
    result is never empty. *)
Fixpoint split_space (s : string) : list string :=
  match s with
  | EmptyString => [EmptyString]
  | String c s' =>
      if Ascii.eqb c " " then EmptyString :: split_space s'
      else match split_space s' with
           | w :: ws => String c w :: ws
           | [] => [String c EmptyString]
           end
  end.

(** [s.lstrip()], [s.rstrip()] and [s.strip()]: whitespace is removed at the
    left end, at the right end, at both. *)
Fixpoint lstrip (s : string) : string :=
  match s with
  | EmptyString => EmptyString
  | String c s' => if isspace c then lstrip s' else s
  end.

Fixpoint rstrip (s : string) : string :=
  match s with
  | EmptyString => EmptyString
  | String c s' =>
      match rstrip s' with
      | EmptyString => if isspace c then EmptyString else String c EmptyString
      | t => String c t
      end
  end.

Definition strip (s : string) : string := rstrip (lstrip s).

(** [s.endswith(suffix)]. *)
Definition endswith (s suffix : string) : bool :=
  let n := String.length s in
  let m := String.length suffix in
  (m <=? n)%nat && String.eqb (String.substring (n - m) m s) suffix.

End PyText.

Import PyText.

(** ** [fix_grammer] *)

(** The dict [fixes]. *)
Definition fixes : gmap string string :=
  {[ "i" := "I"; "dont" := "don't"; "doesnt" := "doesn't" ]}.

Definition fix_grammer (text : string) : string :=
  let words := split_space text in
  join " " ((λ word, default word (fixes !! word)) <$> words).

(** ** [load_corpus] *)

(** The directory [corpus_path] as the function meets it: the names
    [os.listdir] returns, in its order, each with the lines [readlines]
    gives for that file.  Every entry whose name ends in ".txt" is taken to
    be a readable text file.  The second component of the result is what
    has been printed. *)
Definition load_corpus (listdir : list (string * list string))
    (out : list string) : list string * list string :=
  let '(all_lines, found_data) :=
    foldl (λ (acc : list string * bool) (entry : string * list string),
             if endswith entry.1 ".txt" then (acc.1 ++ entry.2, true)
             else acc)
          ([], false) listdir in
  let out :=
    if found_data then out
    else out ++ ["Warning: No txt files found in data/corpus/"] in
  (strip <$> all_lines, out).

(** ** Vocabulary of the further properties *)

(** The fields of a row. *)
Definition row_score (r : row) : Z := r.1.1.1.
Definition row_phrase (r : row) : string := r.1.1.2.
Definition row_len (r : row) : Z := r.1.2.
Definition row_count (r : row) : Z := r.2.

(** The first candidate that is not in [used] and saves two characters. *)
Fixpoint first_fit (used : gset string) (phrase : string)
    (cands : list string) : option string :=
  match cands with
  | [] => None
  | a :: rest =>
      if bool_decide (a ∉ used) && (len a <? len phrase - 1) then Some a
      else first_fit used phrase rest
  end.

(** The warnings for the rows whose phrase has no entry in [registry]. *)
Definition warnings_for (registry : gmap string string) (results : list row)
    : list string :=
  (λ r, warning (row_score r) (row_phrase r))
  <$> filter (λ r, registry !! row_phrase r = None) results.

(** How often the token tuple [key] occurs as a contiguous window of
    [tokens]. *)
Definition occurrences (key tokens : list string) : Z :=
  Z.of_nat (length (filter (λ gram, gram = key) (ngrams tokens (length key)))).

(** The occurrences of [key] in all lines of a corpus. *)
Definition total_occurrences (key : list string) (corpus : list string) : Z :=
  foldr (λ line acc, occurrences key (split line) + acc) 0 corpus.

(** The lines of the ".txt" entries of a directory, as read. *)
Definition txt_lines (listdir : list (string * list string)) : list string :=
  concat (snd <$> filter (λ entry, endswith entry.1 ".txt" = true) listdir).

(** A candidate of between [1] and [n] characters, none of them a space. *)
Definition shaped (n : Z) (a : string) : Prop :=
  1 ≤ len a ≤ n ∧ " "%char ∉ chars a.

(** A small counter for the instances. *)
Definition sample_counts : gmap (list string) Z :=
  {[ ["ab"; "cd"] := 6; ["ab"] := 6; ["x"] := 9; ["rare"; "phrase"] := 2 ]}.

(** A small corpus for the instances. *)
Definition sample_corpus : list string :=
  ["to be or not"; " to  be "; "to be sure"; "not to be"].

(** The word [fix_grammer] puts in the place of [word]: [fixes.get(word,
    word)]. *)
Definition fix_word (word : string) : string := default word (fixes !! word).

(** No character of [w] is the space. *)
Definition space_free (w : string) : Prop := " "%char ∉ chars w.

(** A small directory for the instances. *)
Definition sample_dir : list (string * list string) :=
  [("notes.md", ["not read"]); ("a.txt", ["  to be or not "; "to be"]);
   ("b.txt", ["to be"; "to be sure  "])].

(** * Properties *)

(** ** Facts about the Python primitives *)

Module PyFacts.

(** Settles a boolean comparison on [Z] by linear arithmetic. *)
Ltac zbool :=
  first [ apply Z.ltb_ge | apply Z.ltb_lt | apply Z.leb_le | apply Z.leb_gt ];
  lia.

Lemma str_chars s : str (chars s) = s.
Proof. apply String.string_of_list_ascii_of_string. Qed.

Lemma chars_str l : chars (str l) = l.
Proof. apply String.list_ascii_of_string_of_list_ascii. Qed.

Lemma length_chars s : length (chars s) = String.length s.
Proof. induction s as [|c s IH]; simpl; [done|]. by rewrite IH. Qed.

Lemma len_chars s : Z.of_nat (length (chars s)) = len s.
Proof. unfold len. by rewrite length_chars. Qed.

Lemma len_nonneg s : 0 ≤ len s.
Proof. unfold len. lia. Qed.

Lemma len_app s t : len (s +:+ t) = len s + len t.
Proof.
  unfold len. induction s as [|c s IH].
  - change (EmptyString +:+ t) with t. simpl. lia.
  - change (String c s +:+ t) with (String c (s +:+ t)).
    simpl String.length. lia.
Qed.

Lemma len_empty_inv s : len s = 0 → s = EmptyString.
Proof. destruct s; [done|]. unfold len. simpl. lia. Qed.

(** Indexing with a non-negative index is a list lookup. *)
Lemma list_getitem_nat {A} (l : list A) (i : nat) :
  list_getitem l (Z.of_nat i)
  = match l !! i with Some x => Ok x | None => Raise IndexError end.
Proof.
  unfold list_getitem.
  assert ((Z.of_nat i <? 0) = false) as Hi by zbool. rewrite !Hi, Nat2Z.id.
  destruct (Z.leb_spec (Z.of_nat (length l)) (Z.of_nat i)) as [Hge|Hlt]; simpl.
  - rewrite lookup_ge_None_2; [done|lia].
  - done.
Qed.

(** Indexing with [-k] reads the [k]-th item from the end. *)
Lemma list_getitem_neg {A} (l : list A) (k : nat) :
  (0 < k)%nat →
  list_getitem l (- Z.of_nat k)
  = if decide (k ≤ length l)%nat
    then match l !! (length l - k)%nat with
         | Some x => Ok x
         | None => Raise IndexError
         end
    else Raise IndexError.
Proof.
  intros Hk. unfold list_getitem.
  assert ((- Z.of_nat k <? 0) = true) as Hi by zbool. rewrite !Hi.
  case_decide as Hle.
  - assert ((- Z.of_nat k + Z.of_nat (length l) <? 0) = false) as -> by zbool.
    assert ((Z.of_nat (length l) <=? - Z.of_nat k + Z.of_nat (length l)) = false)
      as -> by zbool.
    simpl. by replace (Z.to_nat (- Z.of_nat k + Z.of_nat (length l)))
      with (length l - k)%nat by lia.
  - by assert ((- Z.of_nat k + Z.of_nat (length l) <? 0) = true) as -> by zbool.
Qed.

Lemma list_getitem_succeeds {A} (l : list A) (i : Z) :
  succeeds (list_getitem l i)
  ↔ - Z.of_nat (length l) ≤ i < Z.of_nat (length l).
Proof.
  unfold succeeds, list_getitem.
  set (j := if i <? 0 then i + Z.of_nat (length l) else i).
  assert (0 ≤ j < Z.of_nat (length l)
          ↔ - Z.of_nat (length l) ≤ i < Z.of_nat (length l)) as <-.
  { unfold j. destruct (Z.ltb_spec i 0); lia. }
  destruct (Z.ltb_spec j 0); simpl.
  { split; [by intros [? ?]|lia]. }
  destruct (Z.leb_spec (Z.of_nat (length l)) j); simpl.
  { split; [by intros [? ?]|lia]. }
  destruct (lookup_lt_is_Some_2 l (Z.to_nat j)) as [x ->]; [lia|].
  split; [lia|eauto].
Qed.

Lemma getitem_succeeds s i :
  succeeds (getitem s i) ↔ - len s ≤ i < len s.
Proof.
  rewrite <-len_chars, <-list_getitem_succeeds. unfold succeeds, getitem.
  destruct (list_getitem (chars s) i); simpl; split; intros [? ?];
    try discriminate; eauto.
Qed.

(** A slice [l[:k]] with [k ≥ 0] keeps the first [k] items. *)
Lemma list_slice_prefix {A} (l : list A) (k : nat) :
  list_slice l None (Some (Z.of_nat k)) = take k l.
Proof.
  unfold list_slice, slice_bound. simpl.
  destruct (Z.ltb_spec (Z.of_nat k) 0); [lia|].
  rewrite Z.sub_0_r.
  destruct (decide (k ≤ length l)%nat).
  - by replace (Z.to_nat (Z.of_nat k `min` Z.of_nat (length l))) with k by lia.
  - replace (Z.to_nat (Z.of_nat k `min` Z.of_nat (length l)))
      with (length l) by lia.
    rewrite firstn_all, take_ge; [done|lia].
Qed.

(** A slice [l[-k:]] with [k > 0] keeps the last [k] items. *)
Lemma list_slice_suffix {A} (l : list A) (k : nat) :
  (0 < k)%nat →
  list_slice l (Some (- Z.of_nat k)) None = drop (length l - k) l.
Proof.
  intros Hk. unfold list_slice, slice_bound. simpl.
  destruct (Z.ltb_spec (- Z.of_nat k) 0); [|lia].
  replace (Z.to_nat (0 `max` (- Z.of_nat k + Z.of_nat (length l))))
    with (length l - k)%nat by lia.
  rewrite take_ge; [done|]. rewrite length_drop. lia.
Qed.

(** [split] never yields an empty word. *)
Lemma split_nonempty s : Forall (λ w, w ≠ EmptyString) (split s).
Proof.
  induction s as [|c s IH]; simpl; [constructor|].
  destruct (isspace c); [done|].
  destruct s as [|c' s']; [by repeat constructor|].
  destruct (isspace c'); [by constructor|].
  destruct (split (String c' s')) as [|w ws]; [by repeat constructor|].
  inversion IH; subst. by constructor.
Qed.

End PyFacts.

(** ** Facts about candidate generation *)

Module CandidateFacts.
Import PyFacts.

Lemma app_cons c s t : String c s +:+ t = String c (s +:+ t).
Proof. done. Qed.

Lemma app_empty t : EmptyString +:+ t = t.
Proof. done. Qed.

Lemma getitem_nat s (i : nat) :
  getitem s (Z.of_nat i)
  = match chars s !! i with
    | Some c => Ok (String c EmptyString)
    | None => Raise IndexError
    end.
Proof.
  unfold getitem. rewrite list_getitem_nat. by destruct (chars s !! i).
Qed.

Lemma take_1_drop {A} (l : list A) i x :
  l !! i = Some x → take 1 (drop i l) = [x].
Proof.
  intros Hi. rewrite <-(Nat.add_0_r i), <-lookup_drop in Hi.
  by destruct (drop i l) as [|y l']; simplify_eq/=.
Qed.

Lemma getitem_first s :
  1 ≤ len s → getitem s 0 = Ok (first_chars 1 s).
Proof.
  intros Hs. destruct s as [|c s]; [unfold len in Hs; simpl in Hs; lia|].
  done.
Qed.

Lemma getitem_second s :
  2 ≤ len s → getitem s 1 = Ok (char_at 1 s).
Proof.
  intros Hs. destruct s as [|c [|c' s]]; try (unfold len in Hs; simpl in Hs; lia).
  change 1 with (Z.of_nat 1). by rewrite getitem_nat.
Qed.

Lemma getitem_last s :
  1 ≤ len s → getitem s (-1) = Ok (last_chars 1 s).
Proof.
  intros Hs. rewrite <-len_chars in Hs.
  unfold getitem, last_chars. change (-1) with (- Z.of_nat 1).
  rewrite list_getitem_neg by lia.
  rewrite decide_True by lia.
  rewrite take_reverse, reverse_involutive.
  destruct (lookup_lt_is_Some_2 (chars s) (length (chars s) - 1)) as [c Hc];
    [lia|].
  rewrite Hc. simpl.
  rewrite <-(take_ge (drop _ (chars s)) 1) by (rewrite length_drop; lia).
  by rewrite (take_1_drop (chars s) _ c Hc).
Qed.

Lemma slice_first s (k : nat) :
  slice s None (Some (Z.of_nat k)) = first_chars k s.
Proof. unfold slice, first_chars. by rewrite list_slice_prefix. Qed.

Lemma slice_last s (k : nat) :
  (0 < k)%nat → slice s (Some (- Z.of_nat k)) None = last_chars k s.
Proof.
  intros Hk. unfold slice, last_chars.
  by rewrite list_slice_suffix, take_reverse, reverse_involutive.
Qed.

Lemma len_token w : is_token w = true → 1 ≤ len w.
Proof. destruct w; [done|]. unfold len. simpl. lia. Qed.

Lemma mapM_first_chars (words : list string) :
  Forall (λ w, w ≠ EmptyString) words →
  mapM (λ w, getitem w 0) words = Ok (first_chars 1 <$> words).
Proof.
  induction 1 as [|w words Hw _ IH]; [done|].
  simpl. rewrite getitem_first.
  - simpl. by rewrite IH.
  - destruct w; [done|]. unfold len. simpl. lia.
Qed.

(** The multi-word part of [get_possible_abbrevs], in closed form. *)
Lemma multi_word_part (words : list string) :
  Forall (λ w, w ≠ EmptyString) words →
  (if 1 <? Z.of_nat (length words) then
     acronym ← mapM (λ w, getitem w 0) words;
     display
       [ Ok (join EmptyString acronym);
         add (w ← list_getitem words 0; getitem w 0)
             (w ← list_getitem words 1; getitem w 0);
         add (w ← list_getitem words 0; Ok (slice w None (Some 2)))
             (w ← list_getitem words 1; getitem w 0) ]
   else Ok [])
  = Ok (multi_word_candidates words).
Proof.
  intros Hne. destruct words as [|w0 [|w1 words]]; [done..|].
  assert ((1 <? Z.of_nat (length (w0 :: w1 :: words))) = true) as ->.
  { simpl length. zbool. }
  rewrite (mapM_first_chars _ Hne).
  inversion Hne as [|?? H0 Hne']; subst.
  inversion Hne' as [|?? H1 _]; subst.
  assert (list_getitem (w0 :: w1 :: words) 0 = Ok w0) as ->
    by apply (list_getitem_nat (w0 :: w1 :: words) 0).
  assert (list_getitem (w0 :: w1 :: words) 1 = Ok w1) as ->
    by apply (list_getitem_nat (w0 :: w1 :: words) 1).
  change (Some 2) with (Some (Z.of_nat 2)).
  assert (1 ≤ len w0) by (destruct w0; [done|]; unfold len; simpl; lia).
  assert (1 ≤ len w1) by (destruct w1; [done|]; unfold len; simpl; lia).
  simpl. rewrite !getitem_first, slice_first by done. done.
Qed.

(** The closed form of [get_possible_abbrevs] whenever the space-removed
    form keeps at least two characters. *)
Lemma get_possible_abbrevs_eq phrase :
  2 ≤ len (replace_space_empty phrase) →
  get_possible_abbrevs phrase
  = Ok (if len phrase <? 2 then [phrase]
        else multi_word_candidates (split phrase)
             ++ concatenated_candidates (replace_space_empty phrase)).
Proof.
  intros Hlen. unfold get_possible_abbrevs.
  destruct (len phrase <? 2); [done|].
  rewrite (multi_word_part _ (split_nonempty phrase)).
  change (Some 2) with (Some (Z.of_nat 2)).
  change (Some 3) with (Some (Z.of_nat 3)).
  change (Some 4) with (Some (Z.of_nat 4)).
  change (Some (-2)) with (Some (- Z.of_nat 2)).
  rewrite !slice_first, !slice_last by lia.
  rewrite !getitem_first, !getitem_second, !getitem_last by lia.
  done.
Qed.

(** With fewer than two non-space characters the indexing fails. *)
Lemma get_possible_abbrevs_raises phrase :
  2 ≤ len phrase →
  len (replace_space_empty phrase) < 2 →
  get_possible_abbrevs phrase = Raise IndexError.
Proof.
  intros Hlen Hshort. unfold get_possible_abbrevs.
  assert ((len phrase <? 2) = false) as -> by zbool.
  rewrite (multi_word_part _ (split_nonempty phrase)).
  destruct (replace_space_empty phrase) as [|c [|c' s]]; [done..|].
  unfold len in Hshort. simpl in Hshort. lia.
Qed.

(** *** Phrase strings: tokens joined by single spaces *)

Lemma isspace_space c : Ascii.eqb c " " = true → isspace c = true.
Proof. intros ->%Ascii.eqb_eq. done. Qed.

Lemma split_token_sep w s :
  is_token w = true → split (w +:+ " " +:+ s) = w :: split s.
Proof.
  change (" " +:+ s) with (String " " s).
  induction w as [|c w IH]; [done|]. intros Hw. simpl in Hw.
  apply andb_true_iff in Hw as [Hc Hw]. apply negb_true_iff in Hc.
  rewrite app_cons. simpl. rewrite Hc.
  destruct w as [|c' w'].
  - rewrite app_empty. done.
  - rewrite app_cons. rewrite <-app_cons.
    rewrite IH by done. simpl in Hw.
    apply andb_true_iff in Hw as [Hc' _]. apply negb_true_iff in Hc'.
    by rewrite Hc'.
Qed.

Lemma split_token w : is_token w = true → split w = [w].
Proof.
  induction w as [|c w IH]; [done|]. intros Hw. simpl in Hw.
  apply andb_true_iff in Hw as [Hc Hw]. apply negb_true_iff in Hc.
  simpl. rewrite Hc.
  destruct w as [|c' w']; [done|].
  rewrite IH by done. simpl in Hw.
  apply andb_true_iff in Hw as [Hc' _]. apply negb_true_iff in Hc'.
  by rewrite Hc'.
Qed.

Lemma join_cons sep w w' tokens :
  join sep (w :: w' :: tokens) = w +:+ sep +:+ join sep (w' :: tokens).
Proof. done. Qed.

(** Splitting a phrase string gives back its tokens. *)
Lemma split_phrase_of tokens :
  Forall (λ w, is_token w = true) tokens → split (phrase_of tokens) = tokens.
Proof.
  unfold phrase_of. induction 1 as [|w tokens Hw Htok IH]; [done|].
  destruct tokens as [|w' tokens]; [by apply split_token|].
  rewrite join_cons, split_token_sep by done. by rewrite IH.
Qed.

Lemma replace_space_empty_app s t :
  replace_space_empty (s +:+ t)
  = replace_space_empty s +:+ replace_space_empty t.
Proof.
  induction s as [|c s IH]; [done|].
  rewrite app_cons. simpl. destruct (Ascii.eqb c " "); [done|].
  by rewrite app_cons, IH.
Qed.

Lemma replace_space_empty_token w :
  no_space w = true → replace_space_empty w = w.
Proof.
  induction w as [|c w IH]; [done|]. simpl.
  intros [Hc Hw]%andb_true_iff. apply negb_true_iff in Hc.
  destruct (Ascii.eqb c " ") eqn:Heq.
  - apply isspace_space in Heq. congruence.
  - by rewrite IH.
Qed.

Lemma no_space_token w : is_token w = true → no_space w = true.
Proof. by destruct w. Qed.

(** The space-removed form of a phrase string is its tokens concatenated. *)
Lemma replace_space_empty_phrase_of tokens :
  Forall (λ w, is_token w = true) tokens →
  replace_space_empty (phrase_of tokens) = join EmptyString tokens.
Proof.
  unfold phrase_of. induction 1 as [|w tokens Hw Htok IH]; [done|].
  destruct tokens as [|w' tokens].
  - by apply replace_space_empty_token, no_space_token.
  - rewrite !join_cons, !replace_space_empty_app, IH.
    by rewrite replace_space_empty_token by by apply no_space_token.
Qed.

Lemma len_join_tokens tokens :
  Forall (λ w, is_token w = true) tokens →
  Z.of_nat (length tokens) ≤ len (join EmptyString tokens).
Proof.
  induction 1 as [|w tokens Hw Htok IH]; [done|].
  apply len_token in Hw.
  destruct tokens as [|w' tokens]; [simpl; lia|].
  rewrite join_cons, !len_app. change (len EmptyString) with 0.
  change (length (w :: w' :: tokens)) with (S (length (w' :: tokens))). lia.
Qed.

(** A phrase string of two characters or more has two non-space ones. *)
Lemma len_phrase_of tokens :
  Forall (λ w, is_token w = true) tokens →
  2 ≤ len (phrase_of tokens) →
  2 ≤ len (join EmptyString tokens).
Proof.
  intros Htok Hlen. destruct tokens as [|w [|w' tokens]].
  - done.
  - done.
  - apply len_join_tokens in Htok. simpl length in Htok. lia.
Qed.

End CandidateFacts.

(** ** Facts about the assignment engine *)

Module EngineFacts.
Import PyFacts.

Lemma test_usable σ phrase abbrev :
  bool_decide (abbrev ∉ BLACKLIST σ) && (len abbrev <? len phrase - 1) = true
  ↔ usable σ phrase abbrev.
Proof.
  unfold usable.
  rewrite andb_true_iff, bool_decide_eq_true, Z.ltb_lt. done.
Qed.

(** The inner loop either finds no usable candidate and prints the
    warning, or takes the first usable one. *)
Lemma try_abbrevs_cases score phrase cands σ :
  (Forall (λ a, ¬ usable σ phrase a) cands
   ∧ try_abbrevs score phrase cands σ = print (warning score phrase) σ)
  ∨ (∃ abbrev, abbrev ∈ cands ∧ usable σ phrase abbrev
     ∧ try_abbrevs score phrase cands σ
       = shortcut_dict_setitem phrase abbrev (abbrev_set_add abbrev σ)).
Proof.
  induction cands as [|a cands IH]; simpl.
  - left. by split.
  - destruct (bool_decide (a ∉ BLACKLIST σ) && (len a <? len phrase - 1))
      eqn:Htest.
    + right. exists a. apply test_usable in Htest. split; [left|done].
    + destruct IH as [[Hall Heq]|(abbrev & Hin & Hok & Heq)].
      * left. split; [|done]. constructor; [|done].
        rewrite <-test_usable. congruence.
      * right. exists abbrev. split; [by right|done].
Qed.

Lemma try_abbrevs_none score phrase cands σ :
  Forall (λ a, ¬ usable σ phrase a) cands →
  try_abbrevs score phrase cands σ = print (warning score phrase) σ.
Proof.
  induction 1 as [|a cands Ha _ IH]; simpl; [done|].
  rewrite <-test_usable in Ha. apply not_true_is_false in Ha.
  by rewrite Ha.
Qed.

Lemma try_abbrevs_step score phrase cands σ :
  presets σ !! phrase = None →
  step σ (try_abbrevs score phrase cands σ).
Proof.
  intros Hfree.
  destruct (try_abbrevs_cases score phrase cands σ)
    as [[_ ->]|(abbrev & _ & [Hnew Hlen] & ->)].
  - by apply step_keep.
  - apply (step_assign _ _ phrase abbrev); [done|done|lia|done..].
Qed.

Lemma assign_row_step r σ σ' : assign_row r σ = Ok σ' → step σ σ'.
Proof.
  destruct r as [[[score phrase] ?] ?]. unfold assign_row.
  destruct (presets σ !! phrase) eqn:Hp.
  - intros [= <-]. by apply step_keep.
  - destruct (get_possible_abbrevs phrase) as [cands|]; [|done].
    intros [= <-]. by apply try_abbrevs_step.
Qed.

Lemma assign_rows_steps results σ σ' :
  assign_rows results σ = Ok σ' → rtc step σ σ'.
Proof.
  revert σ. induction results as [|r results IH]; intros σ; simpl.
  - intros [= <-]. done.
  - destruct (assign_row r σ) as [σ1|] eqn:Hr; [|done]. simpl.
    intros Hrest. eapply rtc_l; [by eapply assign_row_step|by apply IH].
Qed.

(** *** Seeding the set with the values of the dict *)

Lemma seed_fold (l : list (string * string)) σ :
  presets (foldl (λ σ kv, abbrev_set_add kv.2 σ) σ l) = presets σ
  ∧ ∀ x, x ∈ BLACKLIST (foldl (λ σ kv, abbrev_set_add kv.2 σ) σ l)
         ↔ x ∈ BLACKLIST σ ∨ ∃ k, (k, x) ∈ l.
Proof.
  revert σ. induction l as [|[k v] l IH]; intros σ; simpl.
  - split; [done|]. intros x. split; [auto|].
    intros [?|[k Hk]]; [done|]. by apply elem_of_nil in Hk.
  - destruct (IH (abbrev_set_add v σ)) as [-> Hx]. split; [done|].
    intros x. rewrite Hx. simpl. rewrite elem_of_union, elem_of_singleton.
    split.
    + intros [[->|?]|[k' Hk']]; [right; exists k; left|by left|].
      right. exists k'. by right.
    + intros [?|[k' Hk']]; [by left; right|].
      apply elem_of_cons in Hk' as [[= -> ->]|?]; [by left; left|].
      right. by exists k'.
Qed.

Lemma seed_presets σ : presets (seed_abbrev_set σ) = presets σ.
Proof. apply seed_fold. Qed.

Lemma seed_BLACKLIST σ x :
  x ∈ BLACKLIST (seed_abbrev_set σ)
  ↔ x ∈ BLACKLIST σ ∨ ∃ p, presets σ !! p = Some x.
Proof.
  unfold seed_abbrev_set.
  destruct (seed_fold (map_to_list (presets σ)) σ) as [_ ->].
  by setoid_rewrite elem_of_map_to_list.
Qed.

(** *** The invariant *)

Lemma inv_seed σ : inv (BLACKLIST σ) (presets σ) (seed_abbrev_set σ).
Proof.
  split.
  - by rewrite seed_presets.
  - intros x. rewrite seed_BLACKLIST, seed_presets. done.
  - intros p a. rewrite seed_presets. congruence.
Qed.

Lemma inv_step bl0 p0 σ σ' : inv bl0 p0 σ → step σ σ' → inv bl0 p0 σ'.
Proof.
  intros [Hsub Hused Hnew] [Hbl Hp|phrase abbrev Hfree Hfresh Hlen Hbl Hp].
  { split; rewrite ?Hbl, ?Hp; done. }
  assert (abbrev ∉ bl0) as Hbl0 by (rewrite Hused in Hfresh; tauto).
  assert (∀ q, presets σ !! q ≠ Some abbrev) as Hunused.
  { intros q Hq. apply Hfresh, Hused. eauto. }
  split; rewrite ?Hbl, ?Hp.
  - etrans; [done|]. by apply insert_subseteq.
  - intros x. rewrite elem_of_union, elem_of_singleton, Hused. split.
    + intros [->|[?|[p Hp']]]; [|by left|].
      * right. exists phrase. by rewrite lookup_insert_eq.
      * right. exists p. rewrite lookup_insert_ne; [done|congruence].
    + intros [?|[p Hp']]; [by right; left|].
      destruct (decide (phrase = p)) as [->|Hne].
      * rewrite lookup_insert_eq in Hp'. left. congruence.
      * rewrite lookup_insert_ne in Hp' by done. right. right. eauto.
  - intros p a Hpa Hp0.
    destruct (decide (phrase = p)) as [->|Hne].
    + rewrite lookup_insert_eq in Hpa. injection Hpa as <-.
      split; [done|]. split; [done|]. intros q Hq.
      rewrite lookup_insert_ne by done. apply Hunused.
    + rewrite lookup_insert_ne in Hpa by done.
      destruct (Hnew p a Hpa Hp0) as (? & ? & Hq).
      split; [done|]. split; [done|]. intros q Hqp.
      destruct (decide (phrase = q)) as [->|Hne'].
      * rewrite lookup_insert_eq. intros [= ->]. by eapply Hunused.
      * rewrite lookup_insert_ne by done. by apply Hq.
Qed.

Lemma inv_steps bl0 p0 σ σ' : inv bl0 p0 σ → rtc step σ σ' → inv bl0 p0 σ'.
Proof. induction 2; eauto using inv_step. Qed.

(** Every successful call ends in a state that satisfies the invariant
    relative to the set and the dict it started from. *)
Lemma match_abbrevs_to_phrases_inv results σ σ' :
  match_abbrevs_to_phrases results σ = Ok σ' →
  inv (BLACKLIST σ) (presets σ) σ'.
Proof.
  intros Hrun. eapply inv_steps; [apply inv_seed|].
  by eapply assign_rows_steps.
Qed.

Lemma try_abbrevs_skip score phrase a cands σ :
  ¬ usable σ phrase a →
  try_abbrevs score phrase (a :: cands) σ = try_abbrevs score phrase cands σ.
Proof.
  intros Ha. simpl. rewrite <-test_usable in Ha.
  apply not_true_is_false in Ha. by rewrite Ha.
Qed.

Lemma try_abbrevs_take score phrase a cands σ :
  usable σ phrase a →
  try_abbrevs score phrase (a :: cands) σ
  = shortcut_dict_setitem phrase a (abbrev_set_add a σ).
Proof. intros Ha. simpl. apply test_usable in Ha. by rewrite Ha. Qed.

Lemma assign_row_free score phrase l c cands σ :
  presets σ !! phrase = None →
  get_possible_abbrevs phrase = Ok cands →
  assign_row (score, phrase, l, c) σ = Ok (try_abbrevs score phrase cands σ).
Proof. intros Hfree Hcands. unfold assign_row. by rewrite Hfree, Hcands. Qed.

Lemma assign_rows_cons r results σ σ1 :
  assign_row r σ = Ok σ1 →
  assign_rows (r :: results) σ = assign_rows results σ1.
Proof. intros Hr. simpl. by rewrite Hr. Qed.

(** Nothing leaves the set, and no entry of the dict is lost or changed. *)
Lemma BLACKLIST_kept results σ σ' :
  match_abbrevs_to_phrases results σ = Ok σ' → BLACKLIST σ ⊆ BLACKLIST σ'.
Proof.
  intros [_ Hused _]%match_abbrevs_to_phrases_inv x Hx. apply Hused. by left.
Qed.

Lemma presets_kept results σ σ' p a :
  match_abbrevs_to_phrases results σ = Ok σ' →
  presets σ !! p = Some a → presets σ' !! p = Some a.
Proof.
  intros [Hsub _ _]%match_abbrevs_to_phrases_inv Hpa. by eapply lookup_weaken.
Qed.

(** An abbreviation shared by two phrases of the result was already
    shared by them in the dict passed in. *)
Lemma registry_clash results σ σ' P1 P2 A :
  match_abbrevs_to_phrases results σ = Ok σ' →
  P1 ≠ P2 →
  presets σ' !! P1 = Some A →
  presets σ' !! P2 = Some A →
  presets σ !! P1 = Some A ∧ presets σ !! P2 = Some A.
Proof.
  intros [Hsub _ Hnew]%match_abbrevs_to_phrases_inv Hne H1 H2.
  assert (∀ P Q, P ≠ Q → presets σ' !! P = Some A →
                 presets σ' !! Q = Some A → presets σ !! P = Some A) as Hold.
  { intros P Q HPQ HP HQ. destruct (presets σ !! P) as [a|] eqn:Hpre.
    - pose proof (lookup_weaken _ _ _ _ Hpre Hsub). congruence.
    - destruct (Hnew P A HP Hpre) as (_ & _ & Hother).
      by destruct (Hother Q). }
  split; [by apply (Hold P1 P2)|by apply (Hold P2 P1)].
Qed.

(** An abbreviation of the result that was in the set passed in belongs
    to an entry of the dict passed in. *)
Lemma registry_blacklisted results σ σ' P A :
  match_abbrevs_to_phrases results σ = Ok σ' →
  presets σ' !! P = Some A →
  A ∈ BLACKLIST σ →
  presets σ !! P = Some A.
Proof.
  intros [Hsub _ Hnew]%match_abbrevs_to_phrases_inv HP Hin.
  destruct (presets σ !! P) as [a|] eqn:Hpre.
  - pose proof (lookup_weaken _ _ _ _ Hpre Hsub). congruence.
  - by destruct (Hnew P A HP Hpre) as (? & _ & _).
Qed.

(** *** Monotonicity and re-running *)

Lemma step_mono σ σ' :
  step σ σ' → BLACKLIST σ ⊆ BLACKLIST σ' ∧ presets σ ⊆ presets σ'.
Proof.
  intros [-> ->|phrase abbrev Hfree _ _ -> ->]; [done|].
  split; [set_solver|by apply insert_subseteq].
Qed.

Lemma steps_mono σ σ' :
  rtc step σ σ' → BLACKLIST σ ⊆ BLACKLIST σ' ∧ presets σ ⊆ presets σ'.
Proof.
  induction 1 as [|σ σ1 σ' Hstep _ [IHb IHp]]; [done|].
  apply step_mono in Hstep as [? ?]. split; by etrans.
Qed.

(** A row that was processed in [σ] changes nothing when it is processed
    again in any later state [τ] of the same two objects. *)
Lemma assign_row_again r σ σ' τ :
  assign_row r σ = Ok σ' →
  BLACKLIST σ' ⊆ BLACKLIST τ →
  presets σ' ⊆ presets τ →
  ∃ τ', assign_row r τ = Ok τ'
        ∧ BLACKLIST τ' = BLACKLIST τ ∧ presets τ' = presets τ.
Proof.
  destruct r as [[[score phrase] ?] ?]. unfold assign_row.
  intros Hrun Hbl Hp.
  destruct (presets τ !! phrase) eqn:Hτ; [by eauto|].
  assert (presets σ' !! phrase = None) as Hσ'
    by by eapply lookup_weaken_None.
  destruct (presets σ !! phrase) eqn:Hσ; [naive_solver|].
  destruct (get_possible_abbrevs phrase) as [cands|]; [|done].
  injection Hrun as <-. simpl.
  destruct (try_abbrevs_cases score phrase cands σ)
    as [[Hall Heq]|(abbrev & _ & _ & Heq)]; rewrite Heq in *.
  - eexists. split; [done|].
    rewrite try_abbrevs_none; [done|].
    eapply Forall_impl; [exact Hall|]. intros a Ha [Hfresh Hlen].
    apply Ha. split; [|done]. intros Hin. apply Hfresh, Hbl. done.
  - simpl in Hσ'. by rewrite lookup_insert_eq in Hσ'.
Qed.

Lemma assign_rows_again results σ σ' τ :
  assign_rows results σ = Ok σ' →
  BLACKLIST σ' ⊆ BLACKLIST τ →
  presets σ' ⊆ presets τ →
  ∃ τ', assign_rows results τ = Ok τ'
        ∧ BLACKLIST τ' = BLACKLIST τ ∧ presets τ' = presets τ.
Proof.
  revert σ τ. induction results as [|r results IH]; intros σ τ; simpl.
  - eauto.
  - destruct (assign_row r σ) as [σ1|] eqn:Hr; [|done]. simpl.
    intros Hrest Hbl Hp.
    destruct (steps_mono _ _ (assign_rows_steps _ _ _ Hrest)) as [Hbl1 Hp1].
    destruct (assign_row_again r σ σ1 τ Hr) as (τ1 & -> & Hbτ & Hpτ);
      [by etrans..|].
    simpl. destruct (IH σ1 τ1 Hrest) as (τ' & -> & Hb' & Hp');
      [by rewrite ?Hbτ, ?Hpτ..|].
    exists τ'. split; [done|]. split; congruence.
Qed.

(** *** Runs from equal contents *)

Lemma try_abbrevs_same score phrase cands σ τ :
  same_tables σ τ →
  same_tables (try_abbrevs score phrase cands σ)
              (try_abbrevs score phrase cands τ).
Proof.
  intros [Hb Hp]. induction cands as [|a cands IH]; simpl; [done|].
  rewrite Hb.
  destruct (bool_decide (a ∉ BLACKLIST τ) && (len a <? len phrase - 1));
    [|done].
  split; simpl; congruence.
Qed.

Lemma assign_row_same r σ σ' τ :
  same_tables σ τ →
  assign_row r σ = Ok σ' →
  ∃ τ', assign_row r τ = Ok τ' ∧ same_tables σ' τ'.
Proof.
  intros Hsame. destruct r as [[[score phrase] ?] ?]. unfold assign_row.
  destruct Hsame as [Hb Hp]. rewrite <-Hp.
  destruct (presets σ !! phrase); [intros [= <-]; by exists τ|].
  destruct (get_possible_abbrevs phrase) as [cands|]; [|done].
  intros [= <-]. eexists. split; [done|]. by apply try_abbrevs_same.
Qed.

Lemma assign_rows_same results σ σ' τ :
  same_tables σ τ →
  assign_rows results σ = Ok σ' →
  ∃ τ', assign_rows results τ = Ok τ' ∧ same_tables σ' τ'.
Proof.
  revert σ τ. induction results as [|r results IH]; intros σ τ Hsame; simpl.
  - intros [= <-]. eauto.
  - destruct (assign_row r σ) as [σ1|] eqn:Hr; [|done]. simpl. intros Hrest.
    destruct (assign_row_same r σ σ1 τ Hsame Hr) as (τ1 & -> & Hsame1).
    simpl. by eapply IH.
Qed.

Lemma seed_same σ τ :
  same_tables σ τ → same_tables (seed_abbrev_set σ) (seed_abbrev_set τ).
Proof.
  intros [Hb Hp]. split; [|by rewrite !seed_presets].
  apply set_eq. intros x. rewrite !seed_BLACKLIST. by rewrite Hb, Hp.
Qed.

(** Seeding a state that already satisfies the invariant adds nothing. *)
Lemma seed_again bl0 p0 σ :
  inv bl0 p0 σ → same_tables σ (seed_abbrev_set σ).
Proof.
  intros [_ Hused _]. split; [|by rewrite seed_presets].
  apply set_eq. intros x. rewrite seed_BLACKLIST, Hused. tauto.
Qed.

End EngineFacts.

(** ** Facts about sorting rows *)

Module SortFacts.

Global Instance Z_compare_total : TotalCompare Z.compare.
Proof.
  split.
  - intros x y. apply Z.compare_eq_iff.
  - apply Z.compare_refl.
  - apply Z.compare_antisym.
  - intros x y z. rewrite !Z.compare_lt_iff. lia.
Qed.

Lemma string_compare_refl s : String.compare s s = Eq.
Proof.
  induction s as [|c s IH]; [done|]. simpl.
  unfold Ascii.compare. by rewrite N.compare_refl.
Qed.

Global Instance string_compare_total : TotalCompare String.compare.
Proof.
  split.
  - apply String.compare_eq_iff.
  - apply string_compare_refl.
  - intros x y. apply String.compare_antisym.
  - intros x y z Hxy Hyz.
    assert (String.le x z) as Hle.
    { trans y; unfold String.le, String.leb; [by rewrite Hxy|by rewrite Hyz]. }
    unfold String.le, String.leb in Hle.
    destruct (String.compare x z) eqn:Hxz; [|done..].
    apply String.compare_eq_iff in Hxz as ->.
    rewrite String.compare_antisym, Hyz in Hxy. done.
Qed.

Global Instance pair_compare_total {A B} (ca : A → A → comparison)
    (cb : B → B → comparison) `{!TotalCompare ca, !TotalCompare cb} :
  TotalCompare (pair_compare ca cb).
Proof.
  split; unfold pair_compare, lex.
  - intros [a b] [a' b']. simpl.
    destruct (ca a a') eqn:Ha; [|done..].
    intros Hb. by rewrite (cmp_eq (cmp:=ca) _ _ Ha), (cmp_eq (cmp:=cb) _ _ Hb).
  - intros [a b]. simpl.
    by rewrite (cmp_refl (cmp:=ca)), (cmp_refl (cmp:=cb)).
  - intros [a b] [a' b']. simpl.
    rewrite (cmp_opp (cmp:=ca) a a'), (cmp_opp (cmp:=cb) b b').
    by destruct (ca a a').
  - intros [a b] [a' b'] [a'' b'']. simpl.
    destruct (ca a a') eqn:H1; destruct (ca a' a'') eqn:H2; try done.
    + apply (cmp_eq (cmp:=ca)) in H1 as ->.
      apply (cmp_eq (cmp:=ca)) in H2 as ->.
      rewrite (cmp_refl (cmp:=ca)). apply (cmp_trans (cmp:=cb)).
    + apply (cmp_eq (cmp:=ca)) in H1 as ->. by rewrite H2.
    + apply (cmp_eq (cmp:=ca)) in H2 as <-. by rewrite H1.
    + by rewrite (cmp_trans (cmp:=ca) _ _ _ H1 H2).
Qed.

Global Instance row_compare_total : TotalCompare row_compare.
Proof. unfold row_compare. apply _. Qed.

Lemma row_ge_compare x y : row_ge x y ↔ row_compare x y ≠ Lt.
Proof. unfold row_ge, row_ltb. by destruct (row_compare x y). Qed.

Global Instance row_ge_trans : Transitive row_ge.
Proof.
  intros x y z. rewrite !row_ge_compare. intros Hxy Hyz Hxz.
  destruct (row_compare x y) eqn:Hc; [| done |].
  - apply cmp_eq in Hc as ->. done.
  - apply Hyz. apply (cmp_trans y x z); [|done].
    by rewrite cmp_opp, Hc.
Qed.

Global Instance row_ge_antisymm : AntiSymm (=) row_ge.
Proof.
  intros x y. rewrite !row_ge_compare. intros Hxy Hyx.
  destruct (row_compare x y) eqn:Hc; [by apply cmp_eq| done |].
  rewrite cmp_opp, Hc in Hyx. done.
Qed.

Lemma row_ltb_ge x y : row_ltb x y = true → row_ge y x.
Proof.
  unfold row_ltb. rewrite row_ge_compare, (cmp_opp x y).
  by destruct (row_compare x y).
Qed.

Lemma insert_reverse_perm x l : insert_reverse x l ≡ₚ x :: l.
Proof.
  induction l as [|y l IH]; simpl; [done|].
  destruct (row_ltb x y); [|done]. by rewrite IH, Permutation_swap.
Qed.

Lemma insert_reverse_hd x y l :
  HdRel row_ge y l → row_ge y x → HdRel row_ge y (insert_reverse x l).
Proof.
  intros Hhd Hyx. destruct l as [|z l]; simpl; [by constructor|].
  destruct (row_ltb x z); constructor; [|done]. by inversion Hhd.
Qed.

Lemma insert_reverse_sorted x l :
  Sorted row_ge l → Sorted row_ge (insert_reverse x l).
Proof.
  induction 1 as [|y l Hl IH Hhd]; simpl; [by repeat constructor|].
  destruct (row_ltb x y) eqn:Hlt.
  - constructor; [done|]. apply insert_reverse_hd; [done|].
    by apply row_ltb_ge.
  - by repeat constructor.
Qed.

Lemma sorted_reverse_perm l : sorted_reverse l ≡ₚ l.
Proof.
  induction l as [|x l IH]; simpl; [done|].
  by rewrite insert_reverse_perm, IH.
Qed.

Lemma sorted_reverse_sorted l : Sorted row_ge (sorted_reverse l).
Proof.
  induction l as [|x l IH]; simpl; [constructor|].
  by apply insert_reverse_sorted.
Qed.

(** Equal rows are indistinguishable, so the sorted list does not depend on
    the order in which the rows were collected. *)
Lemma sorted_reverse_permutation l l' :
  l ≡ₚ l' → sorted_reverse l = sorted_reverse l'.
Proof.
  intros Hperm. apply (Sorted_unique row_ge).
  - apply sorted_reverse_sorted.
  - apply sorted_reverse_sorted.
  - by rewrite !sorted_reverse_perm.
Qed.

(** The ranker gives the same list for every order in which the items of
    the counter are visited, in particular for the insertion order of a
    Python [dict]. *)
Lemma get_best_phrases_to_shorten_items phrase_counts n_to_keep items :
  items ≡ₚ map_to_list phrase_counts →
  list_slice (sorted_reverse (omap phrase_row items)) None (Some n_to_keep)
  = get_best_phrases_to_shorten phrase_counts n_to_keep.
Proof.
  intros Hperm. unfold get_best_phrases_to_shorten.
  f_equal. apply sorted_reverse_permutation. by rewrite Hperm.
Qed.

End SortFacts.

(** ** Facts about counters *)

Module CounterFacts.

Lemma lookup_update (c d : gmap (list string) Z) k :
  update c d !! k
  = match c !! k, d !! k with
    | Some x, Some y => Some (x + y)
    | Some x, None => Some x
    | None, o => o
    end.
Proof.
  unfold update. rewrite lookup_union_with.
  by destruct (c !! k), (d !! k).
Qed.

Lemma update_comm c d : update c d = update d c.
Proof.
  apply map_eq. intros k. rewrite !lookup_update.
  destruct (c !! k), (d !! k); simpl; f_equal; lia.
Qed.

Lemma update_assoc c d e : update (update c d) e = update c (update d e).
Proof.
  apply map_eq. intros k. rewrite !lookup_update.
  destruct (c !! k), (d !! k), (e !! k); simpl; f_equal; lia.
Qed.

Lemma update_empty_l c : update ∅ c = c.
Proof.
  apply map_eq. intros k. rewrite lookup_update, lookup_empty.
  by destruct (c !! k).
Qed.

(** Updating by two counters in either order gives the same counter. *)
Lemma update_swap c d e : update (update c d) e = update (update c e) d.
Proof. by rewrite !update_assoc, (update_comm d e). Qed.

(** Folding updates into [c] is one update by what the fold gives from
    the empty counter. *)
Lemma foldl_update {A} (g : A → gmap (list string) Z) (l : list A) c :
  foldl (λ c x, update c (g x)) c l
  = update c (foldl (λ c x, update c (g x)) ∅ l).
Proof.
  revert c. induction l as [|x l IH]; intros c; simpl.
  - by rewrite update_comm, update_empty_l.
  - rewrite IH, (IH (update ∅ (g x))), update_empty_l.
    by rewrite update_assoc.
Qed.

Lemma count_line_update max_n c line :
  count_line max_n c line = update c (line_counts max_n line).
Proof. unfold line_counts, count_line. apply foldl_update. Qed.

Lemma count_line_swap max_n c l1 l2 :
  count_line max_n (count_line max_n c l1) l2
  = count_line max_n (count_line max_n c l2) l1.
Proof. rewrite !count_line_update. apply update_swap. Qed.

Lemma foldl_count_line_perm max_n (corpus corpus' : list string) c :
  corpus ≡ₚ corpus' →
  foldl (count_line max_n) c corpus = foldl (count_line max_n) c corpus'.
Proof.
  intros Hperm. revert c.
  induction Hperm as [|x l l' _ IH|x y l|l l' l'' _ IH1 _ IH2];
    intros c; simpl.
  - done.
  - apply IH.
  - by rewrite count_line_swap.
  - by rewrite IH1.
Qed.

End CounterFacts.

(** ** Facts about the matcher *)

Module MatcherFacts.

Lemma strip_trailing_s_app key : strip_trailing_s (key +:+ "s") = Some key.
Proof.
  induction key as [|c key IH]; [done|].
  rewrite CandidateFacts.app_cons. simpl.
  destruct (key +:+ "s") as [|c' rest] eqn:Hk.
  - by destruct key.
  - by rewrite IH.
Qed.

(** The pluralization heuristic in general. *)
Lemma match_to_prev_abbrevs_plural shortcuts key abbrev :
  shortcuts !! key = Some abbrev →
  match_to_prev_abbrevs shortcuts (key +:+ "s") = Some (abbrev +:+ "s").
Proof.
  intros Hkey. unfold match_to_prev_abbrevs.
  rewrite strip_trailing_s_app. simpl. by rewrite Hkey.
Qed.

End MatcherFacts.

(** ** A run on the sample tables *)

Lemma tables_run :
  match_abbrevs_to_phrases input_phrases tables = Ok tables_after.
Proof. vm_compute. reflexivity. Defined.

Lemma tables_distinct P1 P2 A :
  P1 ≠ P2 → presets tables !! P1 = Some A → presets tables !! P2 ≠ Some A.
Proof.
  unfold tables. simpl.
  intros Hne [<- _]%lookup_singleton_Some [<- _]%lookup_singleton_Some. done.
Defined.

Lemma tables_allowed P A : presets tables !! P = Some A → A ∉ BLACKLIST tables.
Proof.
  unfold tables. simpl. intros [_ <-]%lookup_singleton_Some. by vm_compute.
Defined.

(** * The claims *)

(** ** Candidate generation *)

(** C4.  For every phrase string (word tokens joined by single spaces) of at
    least 2 characters, [get_possible_abbrevs] returns exactly the candidates
    of the specification in its order: for more than one word the acronym,
    the first letters of the first two words, the first two letters of the
    first word plus the first letter of the second; then on the
    space-removed form first, first+last, first two, second, last, second,
    first three, first two + last, first + last two, first four, first two +
    last two.  The result for "the" includes "t" and "th", for "different"
    "dt", "dif" and "diff", for "in the robots" "itr"; a string shorter than
    2 characters yields itself as sole candidate. *)
Theorem get_possible_abbrevs_order :
  (∀ tokens : list string,
     Forall (λ w, is_token w = true) tokens →
     2 ≤ len (phrase_of tokens) →
     get_possible_abbrevs (phrase_of tokens) = Ok (candidates_in_order tokens))
  ∧ (∃ out, get_possible_abbrevs "the" = Ok out ∧ "t" ∈ out ∧ "th" ∈ out)
  ∧ (∃ out, get_possible_abbrevs "different" = Ok out
            ∧ "dt" ∈ out ∧ "dif" ∈ out ∧ "diff" ∈ out)
  ∧ (∃ out, get_possible_abbrevs "in the robots" = Ok out ∧ "itr" ∈ out)
  ∧ (∀ phrase, len phrase < 2 → get_possible_abbrevs phrase = Ok [phrase]).
Proof.
  split; [|split; [|split; [|split]]].
  - intros tokens Htok Hlen.
    pose proof (CandidateFacts.len_phrase_of tokens Htok Hlen) as Hwhole.
    rewrite CandidateFacts.get_possible_abbrevs_eq
      by by rewrite CandidateFacts.replace_space_empty_phrase_of.
    assert ((len (phrase_of tokens) <? 2) = false) as -> by PyFacts.zbool.
    rewrite CandidateFacts.split_phrase_of by done.
    by rewrite CandidateFacts.replace_space_empty_phrase_of.
  - eexists. split; [vm_compute; reflexivity|]. set_solver.
  - eexists. split; [vm_compute; reflexivity|]. set_solver.
  - eexists. split; [vm_compute; reflexivity|]. set_solver.
  - intros phrase Hlen. unfold get_possible_abbrevs.
    by assert ((len phrase <? 2) = true) as -> by PyFacts.zbool.
Qed.

Lemma get_possible_abbrevs_order_witness :
  Forall (λ w, is_token w = true) ["in"; "the"; "robots"]
  ∧ 2 ≤ len (phrase_of ["in"; "the"; "robots"])
  ∧ get_possible_abbrevs (phrase_of ["in"; "the"; "robots"])
    = Ok (candidates_in_order ["in"; "the"; "robots"]).
Proof.
  assert (Forall (λ w, is_token w = true) ["in"; "the"; "robots"]) as Htok
    by (repeat constructor).
  assert (2 ≤ len (phrase_of ["in"; "the"; "robots"])) as Hlen
    by (vm_compute; discriminate).
  split; [exact Htok|]. split; [exact Hlen|].
  exact (proj1 get_possible_abbrevs_order _ Htok Hlen).
Defined.

(** C10, as stated, fails: "a " has length 2 and a non-space character, yet
    its space-removed form "a" has no second character and the call raises
    [IndexError]. *)
Lemma get_possible_abbrevs_index_error :
  2 ≤ len "a "
  ∧ (∃ c, c ∈ chars "a " ∧ c ≠ " "%char)
  ∧ get_possible_abbrevs "a " = Raise IndexError.
Proof.
  split; [by vm_compute|]. split; [|by vm_compute].
  exists "a"%char. split; [by left|done].
Qed.

(** C10, amended.  For every input string whose space-removed form has at
    least 2 characters (at least two non-space characters),
    [get_possible_abbrevs] terminates without error and returns a non-empty
    candidate list. *)
Theorem get_possible_abbrevs_safe (phrase : string) :
  2 ≤ len (replace_space_empty phrase) →
  ∃ out, get_possible_abbrevs phrase = Ok out ∧ out ≠ [].
Proof.
  intros Hlen. rewrite CandidateFacts.get_possible_abbrevs_eq by done.
  eexists. split; [done|].
  destruct (len phrase <? 2); [done|].
  unfold concatenated_candidates. intros Hnil.
  by apply app_eq_nil in Hnil as [_ ?].
Qed.

Lemma get_possible_abbrevs_safe_witness :
  2 ≤ len (replace_space_empty "a b")
  ∧ ∃ out, get_possible_abbrevs "a b" = Ok out ∧ out ≠ [].
Proof.
  assert (2 ≤ len (replace_space_empty "a b")) as Hlen
    by (vm_compute; discriminate).
  split; [exact Hlen|]. exact (get_possible_abbrevs_safe "a b" Hlen).
Defined.

(** ** Counting and ranking *)

(** C9.  For every corpus and every maximum n-gram length,
    [corpus_to_ngrams] gives the same counter for every permutation of the
    lines. *)
Theorem corpus_to_ngrams_perm (corpus corpus' : list string) (max_n : Z) :
  corpus ≡ₚ corpus' →
  corpus_to_ngrams corpus max_n = corpus_to_ngrams corpus' max_n.
Proof. apply CounterFacts.foldl_count_line_perm. Qed.

Lemma corpus_to_ngrams_perm_witness :
  ["a b a"; "b c"; "a"] ≡ₚ ["b c"; "a b a"; "a"]
  ∧ corpus_to_ngrams ["a b a"; "b c"; "a"] 2
    = corpus_to_ngrams ["b c"; "a b a"; "a"] 2.
Proof.
  assert (["a b a"; "b c"; "a"] ≡ₚ ["b c"; "a b a"; "a"]) as Hperm
    by apply perm_swap.
  split; [exact Hperm|]. exact (corpus_to_ngrams_perm _ _ 2 Hperm).
Defined.

(** C8.  On an empty corpus the n-gram count is empty, the ranker returns
    the empty list, and the assignment engine run on that list succeeds
    with a registry equal to the preset table. *)
Theorem empty_corpus (max_n n_to_keep : Z) (σ : store) :
  corpus_to_ngrams [] max_n = ∅
  ∧ get_best_phrases_to_shorten (corpus_to_ngrams [] max_n) n_to_keep = []
  ∧ ∃ σ',
      match_abbrevs_to_phrases
        (get_best_phrases_to_shorten (corpus_to_ngrams [] max_n) n_to_keep) σ
      = Ok σ'
      ∧ presets σ' = presets σ.
Proof.
  assert (get_best_phrases_to_shorten (corpus_to_ngrams [] max_n) n_to_keep
          = []) as Hrank.
  { unfold get_best_phrases_to_shorten, corpus_to_ngrams. simpl.
    rewrite map_to_list_empty. simpl. unfold list_slice. simpl.
    by rewrite take_nil. }
  split; [done|]. split; [done|]. rewrite Hrank.
  eexists. split; [done|]. apply EngineFacts.seed_presets.
Qed.

(** ** Matching against earlier abbreviations *)

(** C6.  With the mapping {"the": "t", "robot": "r"} the matcher returns
    "rs" for "robots", "tr" for "the robot", and the no-match signal for
    "asdf". *)
Theorem test_match_to_prev_abbrevs :
  let shortcuts : gmap string string := {[ "the" := "t"; "robot" := "r" ]} in
  match_to_prev_abbrevs shortcuts "robots" = Some "rs"
  ∧ match_to_prev_abbrevs shortcuts "the robot" = Some "tr"
  ∧ match_to_prev_abbrevs shortcuts "asdf" = None.
Proof. by vm_compute. Qed.

(** ** The assignment engine *)

(** C3.  On the ranked input [(100,"zzz"), (90,"zzzzz"), (80,"zz xx")] the
    engine yields a registry that maps "zzzzz" to "zz" and "zz xx" to "zx",
    keeps every Preset Table entry unchanged and has no entry for "zzz".
    The tables [BLACKLIST] and [PRESET_ABBREVS] of module [preset_abbrevs]
    are parameters: the theorem holds for all tables in which "z" is in
    use, "zz" and "zx" are not, and none of the three phrases is a key. *)
Theorem test_match_abbrevs (σ : store) (l1 c1 l2 c2 l3 c3 : Z) :
  used_before σ "z" →
  ¬ used_before σ "zz" →
  ¬ used_before σ "zx" →
  presets σ !! "zzz" = None →
  presets σ !! "zzzzz" = None →
  presets σ !! "zz xx" = None →
  ∃ σ',
    match_abbrevs_to_phrases
      [(100, "zzz", l1, c1); (90, "zzzzz", l2, c2); (80, "zz xx", l3, c3)] σ
    = Ok σ'
    ∧ presets σ' = <["zz xx" := "zx"]> (<["zzzzz" := "zz"]> (presets σ))
    ∧ presets σ' !! "zzzzz" = Some "zz"
    ∧ presets σ' !! "zz xx" = Some "zx"
    ∧ presets σ' !! "zzz" = None
    ∧ ∀ p a, presets σ !! p = Some a → presets σ' !! p = Some a.
Proof.
  intros Hz Hzz Hzx K1 K2 K3.
  assert (get_possible_abbrevs "zzz"
          = Ok ["z"; "zz"; "zz"; "z"; "z"; "z";
                "zzz"; "zzz"; "zzz"; "zzz"; "zzzz"]) as G1
    by (vm_compute; reflexivity).
  assert (get_possible_abbrevs "zzzzz"
          = Ok ["z"; "zz"; "zz"; "z"; "z"; "z";
                "zzz"; "zzz"; "zzz"; "zzzz"; "zzzz"]) as G2
    by (vm_compute; reflexivity).
  assert (get_possible_abbrevs "zz xx"
          = Ok ["zx"; "zx"; "zzx"; "z"; "zx"; "zz"; "z"; "x"; "z";
                "zzx"; "zzx"; "zxx"; "zzxx"; "zzxx"]) as G3
    by (vm_compute; reflexivity).
  unfold match_abbrevs_to_phrases.
  pose proof (EngineFacts.seed_presets σ) as Hp.
  pose proof (EngineFacts.seed_BLACKLIST σ) as Hb.
  set (σs := seed_abbrev_set σ) in *. clearbody σs.
  assert (∃ σ', assign_rows
            [(100, "zzz", l1, c1); (90, "zzzzz", l2, c2); (80, "zz xx", l3, c3)]
            σs = Ok σ'
          ∧ presets σ' = <["zz xx" := "zx"]> (<["zzzzz" := "zz"]> (presets σ)))
    as (σ' & Hrun & Hreg).
  { rewrite (EngineFacts.assign_rows_cons _ _ _ _
               (EngineFacts.assign_row_free 100 "zzz" l1 c1 _ σs
                  ltac:(by rewrite Hp) G1)).
    rewrite EngineFacts.try_abbrevs_none.
    2:{ repeat constructor; intros [Hfree Hlen];
          first [ by vm_compute in Hlen | by apply Hfree, Hb ]. }
    set (σ1 := print (warning 100 "zzz") σs).
    rewrite (EngineFacts.assign_rows_cons _ _ _ _
               (EngineFacts.assign_row_free 90 "zzzzz" l2 c2 _ σ1
                  ltac:(by simpl; rewrite Hp) G2)).
    rewrite EngineFacts.try_abbrevs_skip.
    2:{ intros [Hfree Hlen]. by apply Hfree, Hb. }
    rewrite EngineFacts.try_abbrevs_take.
    2:{ split; [|by vm_compute]. simpl. intros Hin%Hb. by apply Hzz. }
    set (σ2 := shortcut_dict_setitem "zzzzz" "zz" (abbrev_set_add "zz" σ1)).
    rewrite (EngineFacts.assign_rows_cons _ _ _ _
               (EngineFacts.assign_row_free 80 "zz xx" l3 c3 _ σ2
                  ltac:(by simpl; rewrite Hp, lookup_insert_ne) G3)).
    rewrite EngineFacts.try_abbrevs_take.
    2:{ split; [|by vm_compute]. simpl.
        rewrite elem_of_union, elem_of_singleton.
        intros [?|Hin%Hb]; [done|by apply Hzx]. }
    eexists. split; [done|]. simpl. by rewrite Hp. }
  exists σ'. split; [done|]. split; [done|]. rewrite Hreg.
  split; [by rewrite lookup_insert_ne, lookup_insert_eq|].
  split; [by rewrite lookup_insert_eq|].
  split; [by rewrite !lookup_insert_ne|].
  intros p a Hpa.
  rewrite !lookup_insert_ne; [done|congruence..].
Qed.

Lemma test_match_abbrevs_witness :
  used_before tables "z"
  ∧ ¬ used_before tables "zz"
  ∧ ¬ used_before tables "zx"
  ∧ presets tables !! "zzz" = None
  ∧ presets tables !! "zzzzz" = None
  ∧ presets tables !! "zz xx" = None
  ∧ ∃ σ',
      match_abbrevs_to_phrases input_phrases tables = Ok σ'
      ∧ presets σ' = <["zz xx" := "zx"]> (<["zzzzz" := "zz"]> (presets tables))
      ∧ presets σ' !! "zzzzz" = Some "zz"
      ∧ presets σ' !! "zz xx" = Some "zx"
      ∧ presets σ' !! "zzz" = None
      ∧ ∀ p a, presets tables !! p = Some a → presets σ' !! p = Some a.
Proof.
  assert (used_before tables "z") as Hz by (left; by vm_compute).
  assert (¬ used_before tables "zz") as Hzz.
  { unfold used_before, tables. simpl.
    intros [Hin|[p [_ [=]]%lookup_singleton_Some]]. by vm_compute in Hin. }
  assert (¬ used_before tables "zx") as Hzx.
  { unfold used_before, tables. simpl.
    intros [Hin|[p [_ [=]]%lookup_singleton_Some]]. by vm_compute in Hin. }
  assert (presets tables !! "zzz" = None) as K1 by (vm_compute; reflexivity).
  assert (presets tables !! "zzzzz" = None) as K2 by (vm_compute; reflexivity).
  assert (presets tables !! "zz xx" = None) as K3 by (vm_compute; reflexivity).
  repeat (split; [assumption|]).
  exact (test_match_abbrevs tables 0 0 0 0 0 0 Hz Hzz Hzx K1 K2 K3).
Defined.

(** C1, as stated, fails: the engine takes the Preset Table as it is, so a
    table in which two phrases share a blacklisted abbreviation yields a
    registry in which they still share it. *)
Lemma presets_break_registry_invariant :
  let σ := {| BLACKLIST := {["x"]};
              presets := {["p q" := "x"; "r s" := "x"]};
              stdout := [] |} in
  ∃ σ', match_abbrevs_to_phrases [] σ = Ok σ'
        ∧ presets σ' !! "p q" = Some "x"
        ∧ presets σ' !! "r s" = Some "x"
        ∧ ("x" ∈ BLACKLIST σ)
        ∧ ¬ registry_ok (BLACKLIST σ) (presets σ').
Proof.
  eexists. split; [vm_compute; reflexivity|].
  split; [by vm_compute|]. split; [by vm_compute|]. split; [by vm_compute|].
  intros Hok.
  destruct (Hok "p q" "r s" "x" "x") as [Hne _]; done.
Qed.

(** C1, amended.  For every registry the engine produces from a Preset
    Table whose abbreviations are pairwise distinct and outside the
    Blacklist, and every pair of distinct phrases in it, the two
    abbreviations differ and neither is a member of the Blacklist as it
    stood before the call. *)
Theorem registry_invariant (results : list row) (σ σ' : store) :
  (∀ P1 P2 A, P1 ≠ P2 → presets σ !! P1 = Some A → presets σ !! P2 ≠ Some A) →
  (∀ P A, presets σ !! P = Some A → A ∉ BLACKLIST σ) →
  match_abbrevs_to_phrases results σ = Ok σ' →
  registry_ok (BLACKLIST σ) (presets σ').
Proof.
  intros Hdistinct Hallowed Hrun P1 P2 A1 A2 Hne H1 H2.
  split; [|split].
  - intros <-.
    destruct (EngineFacts.registry_clash _ _ _ _ _ _ Hrun Hne H1 H2) as [? ?].
    by eapply Hdistinct.
  - intros Hin. eapply Hallowed; [|done].
    by eapply EngineFacts.registry_blacklisted.
  - intros Hin. eapply Hallowed; [|done].
    by eapply EngineFacts.registry_blacklisted.
Qed.

Lemma registry_invariant_witness :
  match_abbrevs_to_phrases input_phrases tables = Ok tables_after
  ∧ registry_ok (BLACKLIST tables) (presets tables_after).
Proof.
  split; [exact tables_run|].
  exact (registry_invariant input_phrases tables tables_after
           tables_distinct tables_allowed tables_run).
Defined.

(** C2, as stated, fails for an entry that comes from the Preset Table:
    the engine copies it into the registry without comparing lengths. *)
Lemma preset_abbrev_not_shorter :
  let σ := {| BLACKLIST := {["a"]};
              presets := {["to" := "too"]};
              stdout := [] |} in
  ∃ σ', match_abbrevs_to_phrases [] σ = Ok σ'
        ∧ presets σ' !! "to" = Some "too"
        ∧ ¬ (len "too" ≤ len "to" - 2).
Proof.
  eexists. split; [vm_compute; reflexivity|].
  split; [by vm_compute|]. by vm_compute.
Qed.

(** C2, amended.  For every phrase P that the engine itself assigns an
    abbreviation A (an entry of the resulting registry whose phrase is not
    a key of the Preset Table), len(A) <= len(P) - 2. *)
Theorem assigned_abbrev_two_shorter (results : list row) (σ σ' : store)
    (P A : string) :
  match_abbrevs_to_phrases results σ = Ok σ' →
  presets σ !! P = None →
  presets σ' !! P = Some A →
  len A ≤ len P - 2.
Proof.
  intros [_ _ Hnew]%EngineFacts.match_abbrevs_to_phrases_inv Hpre Hreg.
  by destruct (Hnew P A Hreg Hpre) as (_ & ? & _).
Qed.

Lemma assigned_abbrev_two_shorter_witness :
  match_abbrevs_to_phrases input_phrases tables = Ok tables_after
  ∧ presets tables !! "zz xx" = None
  ∧ presets tables_after !! "zz xx" = Some "zx"
  ∧ len "zx" ≤ len "zz xx" - 2.
Proof.
  assert (presets tables !! "zz xx" = None) as Hpre by (vm_compute; reflexivity).
  assert (presets tables_after !! "zz xx" = Some "zx") as Hreg
    by (vm_compute; reflexivity).
  split; [exact tables_run|]. split; [exact Hpre|]. split; [exact Hreg|].
  exact (assigned_abbrev_two_shorter input_phrases tables tables_after
           "zz xx" "zx" tables_run Hpre Hreg).
Defined.

(** C7, as stated, fails: the call adds the preset values and the new
    abbreviation to the Blacklist set, and the new entry to the dict that
    was passed in. *)
Lemma match_abbrevs_to_phrases_mutates :
  let σ := {| BLACKLIST := {["a"]};
              presets := {["again" := "ag"]};
              stdout := [] |} in
  ∃ σ', match_abbrevs_to_phrases [(90, "zzzzz", 5, 4)] σ = Ok σ'
        ∧ BLACKLIST σ = {["a"]}
        ∧ BLACKLIST σ' = {["a"; "ag"; "z"]}
        ∧ BLACKLIST σ' ≠ BLACKLIST σ
        ∧ presets σ = {["again" := "ag"]}
        ∧ presets σ' = {["again" := "ag"; "zzzzz" := "z"]}
        ∧ presets σ' ≠ presets σ.
Proof.
  eexists. split; [vm_compute; reflexivity|].
  split; [done|]. split; [by vm_compute|]. split; [by vm_compute|].
  split; [done|]. split; [by vm_compute|]. by vm_compute.
Qed.

(** C7, amended.  A call removes nothing from the Blacklist set and from
    the dict it is given and changes no entry of it: afterwards the
    Blacklist set still contains every string it contained before, and the
    dict passed in still holds every original entry with the same
    abbreviation (both may have gained elements). *)
Theorem match_abbrevs_to_phrases_frame (results : list row) (σ σ' : store) :
  match_abbrevs_to_phrases results σ = Ok σ' →
  BLACKLIST σ ⊆ BLACKLIST σ'
  ∧ (∀ p a, presets σ !! p = Some a → presets σ' !! p = Some a).
Proof.
  intros Hrun. split.
  - by eapply EngineFacts.BLACKLIST_kept.
  - intros p a. by eapply EngineFacts.presets_kept.
Qed.

Lemma match_abbrevs_to_phrases_frame_witness :
  match_abbrevs_to_phrases input_phrases tables = Ok tables_after
  ∧ BLACKLIST tables ⊆ BLACKLIST tables_after
  ∧ (∀ p a, presets tables !! p = Some a → presets tables_after !! p = Some a).
Proof.
  split; [exact tables_run|].
  exact (match_abbrevs_to_phrases_frame input_phrases tables tables_after
           tables_run).
Defined.

(** C5, as stated, fails: the first call leaves its abbreviations in the
    module's Blacklist set, so a second call with the same ranked list and
    a dict equal to the one first passed finds "z" taken and assigns
    "zz". *)
Lemma rerun_with_equal_presets_differs :
  let results : list row := [(90, "zzzzz", 5, 4)] in
  let σ := {| BLACKLIST := {["a"]}; presets := ∅; stdout := [] |} in
  ∃ σ1 σ2,
    match_abbrevs_to_phrases results σ = Ok σ1
    ∧ match_abbrevs_to_phrases results
        {| BLACKLIST := BLACKLIST σ1; presets := presets σ; stdout := stdout σ1 |}
      = Ok σ2
    ∧ presets σ1 = {["zzzzz" := "z"]}
    ∧ presets σ2 = {["zzzzz" := "zz"]}
    ∧ presets σ2 ≠ presets σ1.
Proof.
  eexists _, _. split; [vm_compute; reflexivity|].
  split; [vm_compute; reflexivity|].
  split; [by vm_compute|]. split; [by vm_compute|]. by vm_compute.
Qed.

(** C5, amended.  Re-running the engine with the same ranked list gives the
    same registry as the first run when the second call starts from a
    Blacklist and a Preset Table with the same contents as the first call
    started from, and also when the registry of the first run is passed
    back in as the Preset Table, the Blacklist being as it was before the
    first run, as the first run left it, or anything in between. *)
Theorem match_abbrevs_to_phrases_rerun (results : list row) (σ σ1 : store) :
  match_abbrevs_to_phrases results σ = Ok σ1 →
  (∀ τ, BLACKLIST τ = BLACKLIST σ → presets τ = presets σ →
        ∃ τ1, match_abbrevs_to_phrases results τ = Ok τ1
              ∧ presets τ1 = presets σ1)
  ∧ (∀ τ, presets τ = presets σ1 →
          BLACKLIST σ ⊆ BLACKLIST τ → BLACKLIST τ ⊆ BLACKLIST σ1 →
          ∃ τ1, match_abbrevs_to_phrases results τ = Ok τ1
                ∧ presets τ1 = presets σ1).
Proof.
  intros Hrun. split.
  - intros τ Hb Hp. unfold match_abbrevs_to_phrases in *.
    destruct (EngineFacts.assign_rows_same results
                (seed_abbrev_set σ) σ1 (seed_abbrev_set τ))
      as (τ1 & Hτ & [Hb1 Hp1]); [by apply EngineFacts.seed_same|done|].
    eauto.
  - intros τ Hp Hlo Hhi.
    destruct (EngineFacts.match_abbrevs_to_phrases_inv _ _ _ Hrun)
      as [_ Hused _].
    unfold match_abbrevs_to_phrases in *.
    destruct (EngineFacts.assign_rows_again results
                (seed_abbrev_set σ) σ1 (seed_abbrev_set τ) Hrun)
      as (τ1 & Hτ1 & _ & Hp1).
    + intros x [Hx|Hx]%Hused; apply EngineFacts.seed_BLACKLIST.
      * left. by apply Hlo.
      * right. by rewrite Hp.
    + by rewrite EngineFacts.seed_presets, Hp.
    + exists τ1. split; [done|].
      by rewrite Hp1, EngineFacts.seed_presets.
Qed.

Lemma match_abbrevs_to_phrases_rerun_witness :
  match_abbrevs_to_phrases input_phrases tables = Ok tables_after
  ∧ presets tables_after = presets tables_after
  ∧ BLACKLIST tables ⊆ BLACKLIST tables_after
  ∧ BLACKLIST tables_after ⊆ BLACKLIST tables_after
  ∧ ∃ τ1, match_abbrevs_to_phrases input_phrases tables_after = Ok τ1
          ∧ presets τ1 = presets tables_after.
Proof.
  assert (BLACKLIST tables ⊆ BLACKLIST tables_after) as Hlo.
  { exact (EngineFacts.BLACKLIST_kept _ _ _ tables_run). }
  split; [exact tables_run|]. split; [reflexivity|].
  split; [exact Hlo|]. split; [reflexivity|].
  exact (proj2 (match_abbrevs_to_phrases_rerun input_phrases tables
                  tables_after tables_run)
           tables_after eq_refl Hlo (reflexivity _)).
Defined.

(** * Further properties of the code *)

(** ** [get_possible_abbrevs] *)

Module CandidateShape.
Import PyFacts CandidateFacts.

Lemma chars_app s t : chars (s +:+ t) = chars s ++ chars t.
Proof.
  induction s as [|c s IH]; [done|].
  rewrite app_cons. simpl. by rewrite IH.
Qed.

Lemma length_chars_Z s : Z.of_nat (length (chars s)) = len s.
Proof. apply len_chars. Qed.

(** [split] yields word tokens only. *)
Lemma split_tokens s : Forall (λ w, is_token w = true) (split s).
Proof.
  induction s as [|c s IH]; simpl; [constructor|].
  destruct (isspace c) eqn:Hc; [done|].
  destruct s as [|c' s']; [repeat constructor; simpl; by rewrite Hc|].
  destruct (isspace c') eqn:Hc'.
  { constructor; [simpl; by rewrite Hc|done]. }
  destruct (split (String c' s')) as [|w ws].
  { repeat constructor. simpl. by rewrite Hc. }
  inversion IH as [|?? Hw Hws]; subst. constructor; [|done].
  destruct w as [|a w]; [done|]. simpl in *. by rewrite Hc.
Qed.

Lemma no_space_chars w c : no_space w = true → c ∈ chars w → isspace c = false.
Proof.
  induction w as [|a w IH]; simpl; [by intros _ ?%elem_of_nil|].
  intros [Ha Hw]%andb_true_iff [->|Hin]%elem_of_cons; [|by apply IH].
  by apply negb_true_iff.
Qed.

Lemma replace_space_empty_chars s : " "%char ∉ chars (replace_space_empty s).
Proof.
  induction s as [|c s IH]; simpl; [by intros ?%elem_of_nil|].
  destruct (Ascii.eqb c " ") eqn:Hc; [done|]. simpl.
  intros [<-|?]%elem_of_cons; [|done]. by rewrite Ascii.eqb_refl in Hc.
Qed.

Lemma first_chars_chars k s : chars (first_chars k s) = take k (chars s).
Proof. unfold first_chars. apply chars_str. Qed.

Lemma last_chars_chars k s :
  chars (last_chars k s) = drop (length (chars s) - k) (chars s).
Proof.
  unfold last_chars. by rewrite chars_str, take_reverse, reverse_involutive.
Qed.

Lemma char_at_chars i s : chars (char_at i s) = take 1 (drop i (chars s)).
Proof. unfold char_at. apply chars_str. Qed.

Lemma shaped_weaken n m a : n ≤ m → shaped n a → shaped m a.
Proof. unfold shaped. intros ? [? ?]. split; [lia|done]. Qed.

Lemma token_shaped w : is_token w = true → 1 ≤ len w ∧ " "%char ∉ chars w.
Proof.
  intros Hw. split; [by apply len_token|].
  intros Hin. by apply (no_space_chars w " " (no_space_token w Hw)) in Hin.
Qed.

(** Settles the shape of a candidate cut out of the list [L]. *)
Ltac shape_of L HL Hsp :=
  unfold shaped; rewrite <-!len_chars;
  rewrite ?chars_app, ?first_chars_chars, ?last_chars_chars, ?char_at_chars;
  split;
  [ rewrite ?length_app, ?length_take, ?length_drop; lia
  | rewrite ?elem_of_app;
    intros Hin; apply Hsp;
    repeat match goal with
      | H : _ ∨ _ |- _ => destruct H
      end;
    repeat match goal with
      | H : _ ∈ take _ _ |- _ => apply subseteq_take in H
      | H : _ ∈ drop _ _ |- _ => apply subseteq_drop in H
      end; assumption ].

Lemma concatenated_candidates_shaped whole :
  2 ≤ len whole → " "%char ∉ chars whole →
  Forall (shaped 4) (concatenated_candidates whole).
Proof.
  intros Hlen Hsp. rewrite <-len_chars in Hlen.
  unfold concatenated_candidates.
  repeat apply Forall_cons_2; [..|apply Forall_nil_2];
    shape_of (chars whole) Hlen Hsp.
Qed.

Lemma acronym_shaped words :
  words ≠ [] →
  Forall (λ w, is_token w = true) words →
  shaped (Z.of_nat (length words)) (join EmptyString (first_chars 1 <$> words)).
Proof.
  intros Hne Hall. induction Hall as [|w words Hw Hall IH]; [done|].
  destruct (token_shaped w Hw) as [Hlen Hsp]. rewrite <-len_chars in Hlen.
  destruct words as [|w' words].
  - simpl. shape_of (chars w) Hlen Hsp.
  - destruct IH as [[IH1 IH2] IH3]; [done|].
    rewrite !fmap_cons in *. rewrite join_cons. unfold shaped.
    rewrite !len_app, !chars_app, first_chars_chars. change (len EmptyString) with 0.
    rewrite <-(len_chars (first_chars 1 w)), first_chars_chars, length_take.
    change (length (w :: w' :: words)) with (S (length (w' :: words))).
    split; [lia|].
    rewrite !elem_of_app. intros [Hin|[Hin|Hin]]; [|by apply elem_of_nil in Hin|done].
    by apply subseteq_take in Hin.
Qed.

Lemma multi_word_candidates_shaped words :
  Forall (λ w, is_token w = true) words →
  Forall (shaped (Z.max 4 (Z.of_nat (length words))))
         (multi_word_candidates words).
Proof.
  intros Hall. destruct words as [|w0 [|w1 words]]; [constructor..|].
  pose proof (acronym_shaped (w0 :: w1 :: words) ltac:(done) Hall) as Hacr.
  inversion Hall as [|?? H0 Hall']; subst.
  inversion Hall' as [|?? H1 _]; subst.
  destruct (token_shaped w0 H0) as [Hl0 Hs0].
  destruct (token_shaped w1 H1) as [Hl1 Hs1].
  rewrite <-len_chars in Hl0, Hl1.
  unfold multi_word_candidates.
  repeat apply Forall_cons_2; [..|apply Forall_nil_2].
  - eapply shaped_weaken; [|exact Hacr]. lia.
  - apply (shaped_weaken 4); [lia|].
    unfold shaped. rewrite <-len_chars, chars_app, !first_chars_chars.
    split; [rewrite length_app, !length_take; lia|].
    rewrite elem_of_app. intros [Hin|Hin]; apply subseteq_take in Hin; done.
  - apply (shaped_weaken 4); [lia|].
    unfold shaped. rewrite <-len_chars, chars_app, !first_chars_chars.
    split; [rewrite length_app, !length_take; lia|].
    rewrite elem_of_app. intros [Hin|Hin]; apply subseteq_take in Hin; done.
Qed.

(** The shape of every candidate of a string of two characters or more. *)
Lemma candidates_shaped phrase out :
  2 ≤ len phrase →
  get_possible_abbrevs phrase = Ok out →
  Forall (shaped (Z.max 4 (Z.of_nat (length (split phrase))))) out.
Proof.
  intros Hlen Hout.
  destruct (Z.lt_ge_cases (len (replace_space_empty phrase)) 2) as [Hlt|Hge].
  { by rewrite get_possible_abbrevs_raises in Hout. }
  rewrite get_possible_abbrevs_eq in Hout by done.
  assert ((len phrase <? 2) = false) as Hb by zbool.
  rewrite Hb in Hout. injection Hout as <-.
  apply Forall_app. split.
  - apply multi_word_candidates_shaped, split_tokens.
  - eapply Forall_impl;
      [apply concatenated_candidates_shaped;
         [done|apply replace_space_empty_chars]|].
    intros a. apply shaped_weaken. lia.
Qed.

End CandidateShape.

(** X1.  [get_possible_abbrevs] raises [IndexError] exactly on the strings of
    at least 2 characters that have fewer than two characters other than
    the space; on every other string it returns a list. *)
Theorem get_possible_abbrevs_raises_iff (phrase : string) :
  get_possible_abbrevs phrase = Raise IndexError
  ↔ 2 ≤ len phrase ∧ len (replace_space_empty phrase) < 2.
Proof.
  split.
  - intros Hraise.
    destruct (Z.lt_ge_cases (len (replace_space_empty phrase)) 2) as [Hlt|Hge].
    + split; [|done].
      destruct (Z.lt_ge_cases (len phrase) 2) as [Hshort|?]; [|done].
      unfold get_possible_abbrevs in Hraise.
      by assert ((len phrase <? 2) = true) as Hb by PyFacts.zbool;
        rewrite Hb in Hraise.
    + by rewrite CandidateFacts.get_possible_abbrevs_eq in Hraise.
  - intros [Hlen Hshort]. by apply CandidateFacts.get_possible_abbrevs_raises.
Qed.

(** X2.  Whenever [get_possible_abbrevs] returns for a string of at least 2
    characters, it returns 14 candidates if the string has more than one
    word and 11 otherwise. *)
Theorem get_possible_abbrevs_length (phrase : string) (out : list string) :
  2 ≤ len phrase →
  get_possible_abbrevs phrase = Ok out →
  length out = if decide (1 < length (split phrase))%nat then 14%nat
               else 11%nat.
Proof.
  intros Hlen Hout.
  destruct (Z.lt_ge_cases (len (replace_space_empty phrase)) 2) as [Hlt|Hge].
  { by rewrite CandidateFacts.get_possible_abbrevs_raises in Hout. }
  rewrite CandidateFacts.get_possible_abbrevs_eq in Hout by done.
  assert ((len phrase <? 2) = false) as Hb by PyFacts.zbool.
  rewrite Hb in Hout. injection Hout as <-.
  rewrite length_app. unfold concatenated_candidates.
  destruct (split phrase) as [|w0 [|w1 ws]]; simpl;
    try case_decide; simpl in *; lia.
Qed.

Lemma get_possible_abbrevs_length_witness :
  2 ≤ len "zz xx"
  ∧ get_possible_abbrevs "zz xx"
    = Ok ["zx"; "zx"; "zzx"; "z"; "zx"; "zz"; "z"; "x"; "z";
          "zzx"; "zzx"; "zxx"; "zzxx"; "zzxx"]
  ∧ length ["zx"; "zx"; "zzx"; "z"; "zx"; "zz"; "z"; "x"; "z";
            "zzx"; "zzx"; "zxx"; "zzxx"; "zzxx"]
    = if decide (1 < length (split "zz xx"))%nat then 14%nat else 11%nat.
Proof.
  assert (2 ≤ len "zz xx") as Hlen by (vm_compute; discriminate).
  assert (get_possible_abbrevs "zz xx"
          = Ok ["zx"; "zx"; "zzx"; "z"; "zx"; "zz"; "z"; "x"; "z";
                "zzx"; "zzx"; "zxx"; "zzxx"; "zzxx"]) as Hout
    by (vm_compute; reflexivity).
  split; [exact Hlen|]. split; [exact Hout|].
  exact (get_possible_abbrevs_length "zz xx" _ Hlen Hout).
Defined.

(** X3.  Every candidate [get_possible_abbrevs] returns for a string of at
    least 2 characters is non-empty, contains no space, and has at most 4
    characters, or as many as the string has words if that is more. *)
Theorem get_possible_abbrevs_shape (phrase : string) (out : list string)
    (a : string) :
  2 ≤ len phrase →
  get_possible_abbrevs phrase = Ok out →
  a ∈ out →
  1 ≤ len a ≤ Z.max 4 (Z.of_nat (length (split phrase)))
  ∧ " "%char ∉ chars a.
Proof.
  intros Hlen Hout Hin.
  pose proof (CandidateShape.candidates_shaped phrase out Hlen Hout) as Hall.
  rewrite Forall_forall in Hall. by apply Hall.
Qed.

Lemma get_possible_abbrevs_shape_witness :
  2 ≤ len "in the robots"
  ∧ get_possible_abbrevs "in the robots"
    = Ok ["itr"; "it"; "int"; "i"; "is"; "in"; "n"; "s"; "n"; "int"; "ins";
          "its"; "inth"; "ints"]
  ∧ "inth" ∈ ["itr"; "it"; "int"; "i"; "is"; "in"; "n"; "s"; "n"; "int";
              "ins"; "its"; "inth"; "ints"]
  ∧ 1 ≤ len "inth" ≤ Z.max 4 (Z.of_nat (length (split "in the robots")))
  ∧ " "%char ∉ chars "inth".
Proof.
  assert (2 ≤ len "in the robots") as Hlen by (vm_compute; discriminate).
  assert (get_possible_abbrevs "in the robots"
          = Ok ["itr"; "it"; "int"; "i"; "is"; "in"; "n"; "s"; "n"; "int";
                "ins"; "its"; "inth"; "ints"]) as Hout
    by (vm_compute; reflexivity).
  assert ("inth" ∈ ["itr"; "it"; "int"; "i"; "is"; "in"; "n"; "s"; "n"; "int";
                    "ins"; "its"; "inth"; "ints"]) as Hin
    by (apply list_elem_of_In; simpl; tauto).
  split; [exact Hlen|]. split; [exact Hout|]. split; [exact Hin|].
  exact (get_possible_abbrevs_shape "in the robots" _ "inth" Hlen Hout Hin).
Defined.

(** ** [match_abbrevs_to_phrases] *)

Module EngineMore.
Import PyFacts EngineFacts.

(** The inner loop takes the first fit in the set as it stands, or prints. *)
Lemma try_abbrevs_first_fit score phrase cands τ :
  try_abbrevs score phrase cands τ
  = match first_fit (BLACKLIST τ) phrase cands with
    | Some a => shortcut_dict_setitem phrase a (abbrev_set_add a τ)
    | None => print (warning score phrase) τ
    end.
Proof.
  induction cands as [|a cands IH]; simpl; [done|].
  by destruct (bool_decide (a ∉ BLACKLIST τ) && (len a <? len phrase - 1)).
Qed.

Lemma first_fit_Some used phrase cands a :
  first_fit used phrase cands = Some a →
  a ∈ cands ∧ (a ∉ used) ∧ len a < len phrase - 1.
Proof.
  induction cands as [|b cands IH]; simpl; [done|].
  destruct (bool_decide (b ∉ used) && (len b <? len phrase - 1)) eqn:Hb.
  - intros [= <-]. apply andb_true_iff in Hb as [Hb1 Hb2].
    apply bool_decide_eq_true in Hb1. apply Z.ltb_lt in Hb2.
    split; [by left|done].
  - intros (? & ? & ?)%IH. split; [by right|done].
Qed.

Lemma first_fit_None_mono used used' phrase cands :
  used ⊆ used' →
  first_fit used phrase cands = None →
  first_fit used' phrase cands = None.
Proof.
  intros Hsub. induction cands as [|b cands IH]; simpl; [done|].
  destruct (bool_decide (b ∉ used) && (len b <? len phrase - 1)) eqn:Hb;
    [done|].
  intros Hrest. rewrite (IH Hrest).
  destruct (bool_decide (b ∉ used') && (len b <? len phrase - 1)) eqn:Hb';
    [|done].
  apply andb_true_iff in Hb' as [Hb1 Hb2].
  apply bool_decide_eq_true in Hb1.
  apply andb_false_iff in Hb as [Hb|Hb]; [|congruence].
  apply bool_decide_eq_false in Hb. destruct Hb. intros Hin. by apply Hb1, Hsub.
Qed.

(** What one row does, read off [assign_row]. *)
Lemma assign_row_cases score phrase l c τ τ1 :
  assign_row (score, phrase, l, c) τ = Ok τ1 →
  (is_Some (presets τ !! phrase) ∧ τ1 = τ)
  ∨ (presets τ !! phrase = None
     ∧ ∃ cands, get_possible_abbrevs phrase = Ok cands
                ∧ τ1 = try_abbrevs score phrase cands τ).
Proof.
  unfold assign_row. destruct (presets τ !! phrase) eqn:Hp.
  - intros [= <-]. left. eauto.
  - destruct (get_possible_abbrevs phrase) as [cands|] eqn:Hc; [|done].
    intros [= <-]. right. eauto.
Qed.

Lemma assign_rows_cons_inv r results τ τ' :
  assign_rows (r :: results) τ = Ok τ' →
  ∃ τ1, assign_row r τ = Ok τ1 ∧ assign_rows results τ1 = Ok τ'.
Proof.
  simpl. destruct (assign_row r τ) as [τ1|]; [|done]. simpl. eauto.
Qed.

(** A phrase that found no fit stays without entry for the rest of the
    call, however often it comes again. *)
Lemma unassignable_stays phrase cands results τ τ' :
  get_possible_abbrevs phrase = Ok cands →
  presets τ !! phrase = None →
  first_fit (BLACKLIST τ) phrase cands = None →
  assign_rows results τ = Ok τ' →
  presets τ' !! phrase = None.
Proof.
  intros Hc. revert τ.
  induction results as [|[[[score q] l] c] results IH]; intros τ Hfree Hnone.
  { by intros [= <-]. }
  intros (τ1 & Hr & Hrest)%assign_rows_cons_inv. revert Hrest.
  apply assign_row_cases in Hr as [[_ ->]|(Hq & cq & Hcq & ->)];
    [by apply IH|].
  rewrite try_abbrevs_first_fit.
  destruct (first_fit (BLACKLIST τ) q cq) as [a|] eqn:Hfit.
  - destruct (decide (q = phrase)) as [->|Hne]; [congruence|].
    apply IH; simpl.
    + by rewrite lookup_insert_ne.
    + eapply first_fit_None_mono; [|done]. set_solver.
  - by apply IH.
Qed.

(** Every entry of the result that was not in the dict passed in belongs
    to a row of the ranked list and is one of the candidates of its
    phrase. *)
Lemma assign_rows_new results τ τ' p a :
  assign_rows results τ = Ok τ' →
  presets τ' !! p = Some a →
  presets τ !! p = Some a
  ∨ ((∃ r, r ∈ results ∧ row_phrase r = p)
     ∧ ∃ cands, get_possible_abbrevs p = Ok cands ∧ a ∈ cands
                ∧ len a < len p - 1).
Proof.
  revert τ. induction results as [|[[[score q] l] c] results IH]; intros τ.
  { intros [= <-]. by left. }
  intros (τ1 & Hr & Hrest)%assign_rows_cons_inv Hfinal.
  destruct (IH τ1 Hrest Hfinal) as [Hτ1|[(r & Hr1 & Hr2) Hc]].
  2:{ right. split; [|done]. exists r. split; [by right|done]. }
  apply assign_row_cases in Hr as [[_ ->]|(Hq & cq & Hcq & ->)]; [by left|].
  rewrite try_abbrevs_first_fit in Hτ1.
  destruct (first_fit (BLACKLIST τ) q cq) as [b|] eqn:Hfit; simpl in Hτ1;
    [|by left].
  destruct (decide (q = p)) as [->|Hne].
  - rewrite lookup_insert_eq in Hτ1. injection Hτ1 as ->.
    apply first_fit_Some in Hfit as (? & ? & ?).
    right. split; [exists (score, p, l, c); split; [by left|done]|eauto].
  - rewrite lookup_insert_ne in Hτ1 by done. by left.
Qed.

End EngineMore.

Module EngineRuns.
Import PyFacts EngineFacts EngineMore.

Lemma seed_stdout σ : stdout (seed_abbrev_set σ) = stdout σ.
Proof.
  unfold seed_abbrev_set. generalize (map_to_list (presets σ)).
  intros l. revert σ. induction l as [|kv l IH]; intros σ; simpl; [done|].
  by rewrite IH.
Qed.

Lemma seed_BLACKLIST_img σ :
  BLACKLIST (seed_abbrev_set σ) = BLACKLIST σ ∪ map_img (presets σ).
Proof.
  apply set_eq. intros x.
  rewrite seed_BLACKLIST, elem_of_union, elem_of_map_img. done.
Qed.

Lemma assign_row_presets_mono r τ τ1 p :
  assign_row r τ = Ok τ1 → is_Some (presets τ !! p) → is_Some (presets τ1 !! p).
Proof.
  intros [_ Hsub]%assign_row_step%step_mono [a Ha].
  exists a. by eapply lookup_weaken.
Qed.

(** The call goes through when every row is skipped or has candidates. *)
Lemma assign_rows_succeeds results τ :
  (∀ r, r ∈ results →
        is_Some (presets τ !! row_phrase r)
        ∨ succeeds (get_possible_abbrevs (row_phrase r))) →
  succeeds (assign_rows results τ).
Proof.
  revert τ. induction results as [|[[[score q] l] c] results IH]; intros τ Hall.
  { by exists τ. }
  assert (succeeds (assign_row (score, q, l, c) τ)) as [τ1 Hr].
  { unfold assign_row. destruct (presets τ !! q) eqn:Hq; [by eexists|].
    destruct (Hall (score, q, l, c)) as [[? Hsome]|[cands Hc]]; [by left|..].
    - change (row_phrase (score, q, l, c)) with q in Hsome. congruence.
    - change (row_phrase (score, q, l, c)) with q in Hc. rewrite Hc.
      by eexists. }
  rewrite (assign_rows_cons _ _ _ _ Hr). apply IH. intros r Hin.
  destruct (Hall r) as [Hsome|?]; [by right|left|by right].
  by eapply assign_row_presets_mono.
Qed.

(** Conversely a call that went through met no row it could not handle. *)
Lemma assign_rows_succeeded results τ τ' r :
  assign_rows results τ = Ok τ' →
  r ∈ results →
  is_Some (presets τ !! row_phrase r)
  ∨ succeeds (get_possible_abbrevs (row_phrase r)).
Proof.
  revert τ. induction results as [|[[[score q] l] c] results IH]; intros τ.
  { by intros _ ?%elem_of_nil. }
  intros (τ1 & Hr & Hrest)%assign_rows_cons_inv Hin.
  apply assign_row_cases in Hr as Hcases.
  apply elem_of_cons in Hin as [->|Hin].
  { destruct Hcases as [[? _]|(_ & cands & Hc & _)]; [by left|right].
    by exists cands. }
  destruct (IH τ1 Hrest Hin) as [[a Ha]|?]; [|by right].
  destruct Hcases as [[_ ->]|(Hq & cands & Hc & ->)]; [left; eauto|].
  rewrite try_abbrevs_first_fit in Ha.
  destruct (first_fit (BLACKLIST τ) q cands); simpl in Ha; [|left; eauto].
  destruct (decide (q = row_phrase r)) as [->|Hne].
  - right. by exists cands.
  - rewrite lookup_insert_ne in Ha by done. left. eauto.
Qed.

(** What a call prints: one warning for each row whose phrase is left
    without entry. *)
Lemma assign_rows_stdout results τ τ' :
  assign_rows results τ = Ok τ' →
  stdout τ' = stdout τ ++ warnings_for (presets τ') results.
Proof.
  revert τ. induction results as [|[[[score q] l] c] results IH]; intros τ.
  { intros [= <-]. unfold warnings_for. simpl. by rewrite app_nil_r. }
  intros (τ1 & Hr & Hrest)%assign_rows_cons_inv.
  pose proof (steps_mono _ _ (assign_rows_steps _ _ _ Hrest)) as [_ Hsub].
  rewrite (IH τ1 Hrest). unfold warnings_for. rewrite filter_cons.
  change (row_phrase (score, q, l, c)) with q.
  apply assign_row_cases in Hr as [[[a Ha] ->]|(Hq & cands & Hc & ->)].
  { rewrite decide_False; [done|].
    by rewrite (lookup_weaken _ _ _ _ Ha Hsub). }
  rewrite try_abbrevs_first_fit in *.
  destruct (first_fit (BLACKLIST τ) q cands) as [a|] eqn:Hfit.
  - rewrite decide_False; [done|].
    assert (presets τ' !! q = Some a) as ->; [|done].
    eapply lookup_weaken; [|exact Hsub]. simpl. apply lookup_insert_eq.
  - rewrite decide_True.
    + rewrite fmap_cons. simpl. by rewrite <-app_assoc.
    + by eapply (unassignable_stays q cands results
                   (print (warning score q) τ)).
Qed.

End EngineRuns.

Module EngineCalls.
Import PyFacts CandidateFacts EngineFacts EngineMore EngineRuns.

Lemma get_possible_abbrevs_succeeds phrase :
  succeeds (get_possible_abbrevs phrase)
  ↔ len phrase < 2 ∨ 2 ≤ len (replace_space_empty phrase).
Proof.
  split.
  - intros [out Hout].
    destruct (Z.lt_ge_cases (len phrase) 2); [by left|right].
    destruct (Z.lt_ge_cases (len (replace_space_empty phrase)) 2); [|done].
    by rewrite get_possible_abbrevs_raises in Hout.
  - intros [Hshort|Hlong].
    + unfold get_possible_abbrevs.
      assert ((len phrase <? 2) = true) as -> by zbool. by eexists.
    + rewrite get_possible_abbrevs_eq by done. by eexists.
Qed.

(** An entry that the call added: its phrase is ranked, its abbreviation
    is one of the candidates of the phrase and saves two characters. *)
Lemma new_entry results σ σ' p a :
  match_abbrevs_to_phrases results σ = Ok σ' →
  presets σ !! p = None →
  presets σ' !! p = Some a →
  (∃ r, r ∈ results ∧ row_phrase r = p)
  ∧ ∃ cands, get_possible_abbrevs p = Ok cands ∧ a ∈ cands
             ∧ len a < len p - 1.
Proof.
  unfold match_abbrevs_to_phrases. intros Hrun Hpre Hreg.
  destruct (assign_rows_new _ _ _ _ _ Hrun Hreg) as [Hold|?]; [|done].
  rewrite seed_presets in Hold. congruence.
Qed.

(** The entry of the first row, if its phrase is not a key already. *)
Lemma first_row_entry score phrase l c rest σ σ' :
  match_abbrevs_to_phrases ((score, phrase, l, c) :: rest) σ = Ok σ' →
  presets σ !! phrase = None →
  ∃ cands, get_possible_abbrevs phrase = Ok cands
           ∧ presets σ' !! phrase
             = first_fit (BLACKLIST σ ∪ map_img (presets σ)) phrase cands.
Proof.
  unfold match_abbrevs_to_phrases.
  intros (τ1 & Hr & Hrest)%assign_rows_cons_inv Hpre.
  apply assign_row_cases in Hr as [[[a Ha] _]|(_ & cands & Hc & ->)].
  { rewrite seed_presets in Ha. congruence. }
  exists cands. split; [done|]. rewrite <-seed_BLACKLIST_img.
  rewrite try_abbrevs_first_fit in Hrest.
  destruct (first_fit (BLACKLIST (seed_abbrev_set σ)) phrase cands) as [a|]
    eqn:Hfit.
  - pose proof (steps_mono _ _ (assign_rows_steps _ _ _ Hrest)) as [_ Hsub].
    eapply lookup_weaken; [|exact Hsub]. simpl. apply lookup_insert_eq.
  - eapply (unassignable_stays phrase cands rest
              (print (warning score phrase) (seed_abbrev_set σ)));
      [done| |done|done].
    simpl. by rewrite seed_presets.
Qed.

End EngineCalls.

(** X4.  After a call the Blacklist set holds exactly the strings it held
    before together with every abbreviation of the registry returned. *)
Theorem BLACKLIST_after_call (results : list row) (σ σ' : store) :
  match_abbrevs_to_phrases results σ = Ok σ' →
  ∀ x, x ∈ BLACKLIST σ' ↔ x ∈ BLACKLIST σ ∨ ∃ p, presets σ' !! p = Some x.
Proof.
  intros Hrun. by destruct (EngineFacts.match_abbrevs_to_phrases_inv _ _ _ Hrun).
Qed.

Lemma BLACKLIST_after_call_witness :
  match_abbrevs_to_phrases input_phrases tables = Ok tables_after
  ∧ ∀ x, x ∈ BLACKLIST tables_after
         ↔ x ∈ BLACKLIST tables ∨ ∃ p, presets tables_after !! p = Some x.
Proof.
  split; [exact tables_run|].
  exact (BLACKLIST_after_call input_phrases tables tables_after tables_run).
Defined.

(** X5.  Every entry the call adds to the dict belongs to a phrase of the
    ranked list that has at least 3 characters, and its abbreviation is
    one of the candidates [get_possible_abbrevs] gives for that phrase,
    hence non-empty and without a space. *)
Theorem new_entries_are_candidates (results : list row) (σ σ' : store)
    (P A : string) :
  match_abbrevs_to_phrases results σ = Ok σ' →
  presets σ !! P = None →
  presets σ' !! P = Some A →
  (∃ r, r ∈ results ∧ row_phrase r = P)
  ∧ (∃ cands, get_possible_abbrevs P = Ok cands ∧ A ∈ cands)
  ∧ 3 ≤ len P ∧ 1 ≤ len A ∧ " "%char ∉ chars A.
Proof.
  intros Hrun Hpre Hreg.
  destruct (EngineCalls.new_entry _ _ _ _ _ Hrun Hpre Hreg)
    as [Hrow (cands & Hc & Hin & Hshort)].
  split; [done|]. split; [eauto|].
  assert (2 ≤ len P) as Hlen.
  { destruct (Z.lt_ge_cases (len P) 2) as [Hlt|?]; [|done].
    unfold get_possible_abbrevs in Hc.
    assert ((len P <? 2) = true) as Hb by PyFacts.zbool. rewrite Hb in Hc.
    injection Hc as <-. apply list_elem_of_singleton in Hin as ->. lia. }
  pose proof (CandidateShape.candidates_shaped P cands Hlen Hc) as Hall.
  rewrite Forall_forall in Hall. destruct (Hall A Hin) as [[? _] ?].
  split; [lia|done].
Qed.

Lemma new_entries_are_candidates_witness :
  match_abbrevs_to_phrases input_phrases tables = Ok tables_after
  ∧ presets tables !! "zzzzz" = None
  ∧ presets tables_after !! "zzzzz" = Some "zz"
  ∧ (∃ r, r ∈ input_phrases ∧ row_phrase r = "zzzzz")
  ∧ (∃ cands, get_possible_abbrevs "zzzzz" = Ok cands ∧ "zz" ∈ cands)
  ∧ 3 ≤ len "zzzzz" ∧ 1 ≤ len "zz" ∧ " "%char ∉ chars "zz".
Proof.
  assert (presets tables !! "zzzzz" = None) as Hpre by (vm_compute; reflexivity).
  assert (presets tables_after !! "zzzzz" = Some "zz") as Hreg
    by (vm_compute; reflexivity).
  split; [exact tables_run|]. split; [exact Hpre|]. split; [exact Hreg|].
  exact (new_entries_are_candidates input_phrases tables tables_after
           "zzzzz" "zz" tables_run Hpre Hreg).
Defined.

(** X6.  A call returns (rather than raising [IndexError]) exactly when
    every row of the ranked list has a phrase that is a key of the dict
    passed in, or is shorter than 2 characters, or has at least two
    characters other than the space. *)
Theorem match_abbrevs_to_phrases_returns_iff (results : list row) (σ : store) :
  (∃ σ', match_abbrevs_to_phrases results σ = Ok σ')
  ↔ ∀ r, r ∈ results →
         is_Some (presets σ !! row_phrase r)
         ∨ len (row_phrase r) < 2
         ∨ 2 ≤ len (replace_space_empty (row_phrase r)).
Proof.
  unfold match_abbrevs_to_phrases. split.
  - intros [σ' Hrun] r Hin.
    destruct (EngineRuns.assign_rows_succeeded _ _ _ r Hrun Hin) as [Hkey|Hok].
    + left. by rewrite EngineFacts.seed_presets in Hkey.
    + right. by apply EngineCalls.get_possible_abbrevs_succeeds.
  - intros Hall. apply EngineRuns.assign_rows_succeeds. intros r Hin.
    rewrite EngineFacts.seed_presets.
    destruct (Hall r Hin) as [?|Hok]; [by left|right].
    by apply EngineCalls.get_possible_abbrevs_succeeds.
Qed.

(** X7.  A call prints exactly one warning line for each row of the ranked
    list whose phrase has no entry in the registry returned, in the order
    of the rows, and nothing else. *)
Theorem warnings_printed (results : list row) (σ σ' : store) :
  match_abbrevs_to_phrases results σ = Ok σ' →
  stdout σ' = stdout σ ++ warnings_for (presets σ') results.
Proof.
  unfold match_abbrevs_to_phrases. intros Hrun.
  by rewrite (EngineRuns.assign_rows_stdout _ _ _ Hrun), EngineRuns.seed_stdout.
Qed.

Lemma warnings_printed_witness :
  match_abbrevs_to_phrases input_phrases tables = Ok tables_after
  ∧ stdout tables_after
    = stdout tables ++ warnings_for (presets tables_after) input_phrases.
Proof.
  split; [exact tables_run|].
  exact (warnings_printed input_phrases tables tables_after tables_run).
Defined.

(** X8.  The first row of the ranked list, if its phrase is not a key
    already, gets the first of its candidates that is neither in the
    Blacklist nor a value of the dict passed in and that saves two
    characters, whatever rows follow; if there is no such candidate the
    phrase has no entry in the registry returned. *)
Theorem top_ranked_first_fit (score : Z) (phrase : string) (l c : Z)
    (rest : list row) (σ σ' : store) :
  match_abbrevs_to_phrases ((score, phrase, l, c) :: rest) σ = Ok σ' →
  presets σ !! phrase = None →
  ∃ cands, get_possible_abbrevs phrase = Ok cands
           ∧ presets σ' !! phrase
             = first_fit (BLACKLIST σ ∪ map_img (presets σ)) phrase cands.
Proof. apply EngineCalls.first_row_entry. Qed.

Lemma top_ranked_first_fit_witness :
  match_abbrevs_to_phrases
    ((100, "zzz", 0, 0) :: [(90, "zzzzz", 0, 0); (80, "zz xx", 0, 0)]) tables
  = Ok tables_after
  ∧ presets tables !! "zzz" = None
  ∧ ∃ cands, get_possible_abbrevs "zzz" = Ok cands
             ∧ presets tables_after !! "zzz"
               = first_fit (BLACKLIST tables ∪ map_img (presets tables))
                   "zzz" cands.
Proof.
  assert (presets tables !! "zzz" = None) as Hpre by (vm_compute; reflexivity).
  split; [exact tables_run|]. split; [exact Hpre|].
  exact (top_ranked_first_fit 100 "zzz" 0 0 _ tables tables_after
           tables_run Hpre).
Defined.

(** ** [get_best_phrases_to_shorten] *)

Module RankerFacts.
Import PyFacts SortFacts.

(** A slice [l[:k]] with [k ≥ 0] is a prefix; with [k < 0] it leaves out the
    last [-k] items. *)
Lemma list_slice_to {A} (l : list A) (k : Z) :
  0 ≤ k → list_slice l None (Some k) = take (Z.to_nat k) l.
Proof.
  intros Hk. rewrite <-(Z2Nat.id k) at 1 by done. apply list_slice_prefix.
Qed.

Lemma list_slice_to_neg {A} (l : list A) (k : Z) :
  k < 0 → list_slice l None (Some k) = take (length l - Z.to_nat (- k)) l.
Proof.
  intros Hk. unfold list_slice, slice_bound. simpl.
  assert ((k <? 0) = true) as -> by zbool.
  rewrite Z.sub_0_r. f_equal. lia.
Qed.

Lemma length_omap_le {A B} (f : A → option B) (l : list A) :
  (length (omap f l) ≤ length l)%nat.
Proof.
  induction l as [|x l IH]; [done|].
  change (omap f (x :: l))
    with (match f x with Some y => y :: omap f l | None => omap f l end).
  destruct (f x); simpl; lia.
Qed.

(** The rows before the cutoff. *)
Lemma ranking_full phrase_counts k :
  Z.of_nat (size phrase_counts) ≤ k →
  get_best_phrases_to_shorten phrase_counts k
  = sorted_reverse (omap phrase_row (map_to_list phrase_counts)).
Proof.
  intros Hk. unfold get_best_phrases_to_shorten.
  rewrite list_slice_to by lia. apply take_ge.
  rewrite (Permutation_length (sorted_reverse_perm _)).
  pose proof (length_omap_le phrase_row (map_to_list phrase_counts)).
  rewrite length_map_to_list in *. lia.
Qed.

Lemma ranking_slice phrase_counts k :
  get_best_phrases_to_shorten phrase_counts k
  = list_slice (get_best_phrases_to_shorten phrase_counts
                  (Z.of_nat (size phrase_counts)))
      None (Some k).
Proof. by rewrite (ranking_full _ (Z.of_nat (size phrase_counts))) by lia. Qed.

Lemma phrase_row_Some key count r :
  phrase_row (key, count) = Some r
  ↔ 3 < count ∧ 2 ≤ len (join " " key)
    ∧ r = ((len (join " " key) - 2) * count, join " " key,
           len (join " " key), count).
Proof.
  unfold phrase_row.
  destruct (Z.leb_spec count 3); [split; [done|lia]|].
  destruct (Z.ltb_spec (len (join " " key)) 2); [split; [done|lia]|].
  split; [intros [= <-]; done|intros (_ & _ & ->); done].
Qed.

Lemma elem_of_ranking phrase_counts r :
  r ∈ sorted_reverse (omap phrase_row (map_to_list phrase_counts))
  ↔ ∃ key count, phrase_counts !! key = Some count
                 ∧ phrase_row (key, count) = Some r.
Proof.
  rewrite (sorted_reverse_perm _), list_elem_of_omap. split.
  - intros ([key count] & Hin%elem_of_map_to_list & Hrow). eauto.
  - intros (key & count & Hin & Hrow). exists (key, count).
    by rewrite elem_of_map_to_list.
Qed.

Lemma elem_of_list_slice_to {A} (l : list A) k x :
  x ∈ list_slice l None (Some k) → x ∈ l.
Proof.
  destruct (Z.lt_ge_cases k 0).
  - rewrite list_slice_to_neg by done. apply subseteq_take.
  - rewrite list_slice_to by done. apply subseteq_take.
Qed.

Lemma row_ge_score x y : row_ge x y → row_score y ≤ row_score x.
Proof.
  rewrite row_ge_compare. destruct x as [[[s1 p1] l1] c1], y as [[[s2 p2] l2] c2].
  unfold row_compare, pair_compare, lex, row_score. simpl.
  destruct (s1 ?= s2) eqn:Hs; [| |].
  - apply Z.compare_eq_iff in Hs. lia.
  - by intros [].
  - apply Z.compare_gt_iff in Hs. lia.
Qed.

Lemma ranking_sorted l : StronglySorted row_ge (sorted_reverse l).
Proof. apply Sorted_StronglySorted; [apply _|apply sorted_reverse_sorted]. Qed.

Lemma StronglySorted_take {A} (R : relation A) (l : list A) n :
  StronglySorted R l → StronglySorted R (take n l).
Proof.
  intros Hl. rewrite <-(take_drop n l) in Hl.
  by apply StronglySorted_app_1_l in Hl.
Qed.

Lemma StronglySorted_list_slice_to {A} (R : relation A) (l : list A) k :
  StronglySorted R l → StronglySorted R (list_slice l None (Some k)).
Proof.
  intros Hl. destruct (Z.lt_ge_cases k 0).
  - rewrite list_slice_to_neg by done. by apply StronglySorted_take.
  - rewrite list_slice_to by done. by apply StronglySorted_take.
Qed.

Lemma StronglySorted_impl {A} (R S : relation A) (l : list A) :
  (∀ x y, R x y → S x y) → StronglySorted R l → StronglySorted S l.
Proof.
  intros HRS. induction 1 as [|x l _ IH Hall]; constructor; [done|].
  eapply Forall_impl; [done|]. intros y. apply HRS.
Qed.

End RankerFacts.

(** X9.  Every row the ranker returns comes from an entry of the counter
    with a count above 3: its phrase is the tokens of the key joined by
    single spaces and has at least 2 characters, its length field is that
    phrase's length, and its score is (length - 2) * count, which is never
    negative. *)
Theorem ranked_rows_sound (phrase_counts : gmap (list string) Z)
    (n_to_keep : Z) (r : row) :
  r ∈ get_best_phrases_to_shorten phrase_counts n_to_keep →
  ∃ key, phrase_counts !! key = Some (row_count r)
         ∧ row_phrase r = join " " key
         ∧ 3 < row_count r
         ∧ row_len r = len (row_phrase r)
         ∧ 2 ≤ row_len r
         ∧ row_score r = (row_len r - 2) * row_count r
         ∧ 0 ≤ row_score r.
Proof.
  unfold get_best_phrases_to_shorten.
  intros Hin%RankerFacts.elem_of_list_slice_to.
  apply RankerFacts.elem_of_ranking in Hin as (key & count & Hkey & Hrow).
  apply RankerFacts.phrase_row_Some in Hrow as (Hcount & Hlen & ->).
  exists key. unfold row_count, row_phrase, row_len, row_score. simpl.
  repeat split; try done. nia.
Qed.

Lemma ranked_rows_sound_witness :
  (18, "ab cd", 5, 6) ∈ get_best_phrases_to_shorten sample_counts 5
  ∧ ∃ key, sample_counts !! key = Some (row_count (18, "ab cd", 5, 6))
           ∧ row_phrase (18, "ab cd", 5, 6) = join " " key
           ∧ 3 < row_count (18, "ab cd", 5, 6)
           ∧ row_len (18, "ab cd", 5, 6) = len (row_phrase (18, "ab cd", 5, 6))
           ∧ 2 ≤ row_len (18, "ab cd", 5, 6)
           ∧ row_score (18, "ab cd", 5, 6)
             = (row_len (18, "ab cd", 5, 6) - 2) * row_count (18, "ab cd", 5, 6)
           ∧ 0 ≤ row_score (18, "ab cd", 5, 6).
Proof.
  assert ((18, "ab cd", 5, 6) ∈ get_best_phrases_to_shorten sample_counts 5)
    as Hin.
  { assert (get_best_phrases_to_shorten sample_counts 5
            = [(18, "ab cd", 5, 6); (0, "ab", 2, 6)]) as ->
      by (vm_compute; reflexivity).
    by left. }
  split; [exact Hin|].
  exact (ranked_rows_sound sample_counts 5 _ Hin).
Defined.

(** X10.  The rows the ranker returns are in descending tuple order; in
    particular no row has a higher score than a row before it. *)
Theorem ranked_rows_sorted (phrase_counts : gmap (list string) Z)
    (n_to_keep : Z) :
  StronglySorted row_ge (get_best_phrases_to_shorten phrase_counts n_to_keep)
  ∧ StronglySorted (λ x y, row_score y ≤ row_score x)
      (get_best_phrases_to_shorten phrase_counts n_to_keep).
Proof.
  assert (StronglySorted row_ge
            (get_best_phrases_to_shorten phrase_counts n_to_keep)) as Hsorted.
  { unfold get_best_phrases_to_shorten.
    apply RankerFacts.StronglySorted_list_slice_to, RankerFacts.ranking_sorted. }
  split; [done|].
  eapply RankerFacts.StronglySorted_impl; [|exact Hsorted].
  apply RankerFacts.row_ge_score.
Qed.

(** X11.  With a cutoff that is at least the number of entries of the
    counter, every entry with a count above 3 and a phrase of at least 2
    characters has its row in the result. *)
Theorem ranked_rows_complete (phrase_counts : gmap (list string) Z)
    (n_to_keep : Z) (key : list string) (count : Z) :
  Z.of_nat (size phrase_counts) ≤ n_to_keep →
  phrase_counts !! key = Some count →
  3 < count →
  2 ≤ len (join " " key) →
  ((len (join " " key) - 2) * count, join " " key, len (join " " key), count)
  ∈ get_best_phrases_to_shorten phrase_counts n_to_keep.
Proof.
  intros Hk Hkey Hcount Hlen. rewrite RankerFacts.ranking_full by done.
  apply RankerFacts.elem_of_ranking. exists key, count. split; [done|].
  by apply RankerFacts.phrase_row_Some.
Qed.

Lemma ranked_rows_complete_witness :
  Z.of_nat (size sample_counts) ≤ 200
  ∧ sample_counts !! ["ab"; "cd"] = Some 6
  ∧ 3 < 6
  ∧ 2 ≤ len (join " " ["ab"; "cd"])
  ∧ ((len (join " " ["ab"; "cd"]) - 2) * 6, join " " ["ab"; "cd"],
     len (join " " ["ab"; "cd"]), 6)
    ∈ get_best_phrases_to_shorten sample_counts 200.
Proof.
  assert (Z.of_nat (size sample_counts) ≤ 200) as Hk
    by (vm_compute; discriminate).
  assert (sample_counts !! ["ab"; "cd"] = Some 6) as Hkey
    by (vm_compute; reflexivity).
  assert (3 < 6) as Hcount by lia.
  assert (2 ≤ len (join " " ["ab"; "cd"])) as Hlen
    by (vm_compute; discriminate).
  repeat (split; [assumption|]).
  exact (ranked_rows_complete sample_counts 200 _ 6 Hk Hkey Hcount Hlen).
Defined.

(** X12.  For a cutoff k >= 0 the ranker returns at most k rows, and they
    are the first k rows of what any larger cutoff returns. *)
Theorem cutoff_is_prefix (phrase_counts : gmap (list string) Z) (k k' : Z) :
  0 ≤ k → k ≤ k' →
  get_best_phrases_to_shorten phrase_counts k
  = take (Z.to_nat k) (get_best_phrases_to_shorten phrase_counts k')
  ∧ Z.of_nat (length (get_best_phrases_to_shorten phrase_counts k)) ≤ k.
Proof.
  intros Hk Hk'. unfold get_best_phrases_to_shorten.
  rewrite !RankerFacts.list_slice_to by lia. split.
  - rewrite take_take. f_equal. lia.
  - rewrite length_take. lia.
Qed.

Lemma cutoff_is_prefix_witness :
  0 ≤ 1 ∧ 1 ≤ 5
  ∧ get_best_phrases_to_shorten sample_counts 1
    = take (Z.to_nat 1) (get_best_phrases_to_shorten sample_counts 5)
  ∧ Z.of_nat (length (get_best_phrases_to_shorten sample_counts 1)) ≤ 1.
Proof.
  assert (0 ≤ 1) as H0 by lia. assert (1 ≤ 5) as H1 by lia.
  split; [exact H0|]. split; [exact H1|].
  exact (cutoff_is_prefix sample_counts 1 5 H0 H1).
Defined.

(** X13.  A negative cutoff does not give an empty result: [n_to_keep = -j]
    returns the complete ranking without its last j rows. *)
Theorem negative_cutoff_drops_last (phrase_counts : gmap (list string) Z)
    (k : Z) :
  k < 0 →
  get_best_phrases_to_shorten phrase_counts k
  = take (length (get_best_phrases_to_shorten phrase_counts
                    (Z.of_nat (size phrase_counts)))
          - Z.to_nat (- k))
      (get_best_phrases_to_shorten phrase_counts
         (Z.of_nat (size phrase_counts))).
Proof.
  intros Hk. rewrite (RankerFacts.ranking_slice phrase_counts k).
  by apply RankerFacts.list_slice_to_neg.
Qed.

Lemma negative_cutoff_drops_last_witness :
  -1 < 0
  ∧ get_best_phrases_to_shorten sample_counts (-1)
    = take (length (get_best_phrases_to_shorten sample_counts
                      (Z.of_nat (size sample_counts)))
            - Z.to_nat (- -1))
        (get_best_phrases_to_shorten sample_counts
           (Z.of_nat (size sample_counts))).
Proof.
  assert (-1 < 0) as Hk by lia.
  split; [exact Hk|].
  exact (negative_cutoff_drops_last sample_counts (-1) Hk).
Defined.

(** ** [corpus_to_ngrams] *)

Module CounterMore.
Import PyFacts CounterFacts.

(** The windows [ngrams] gives have the length asked for and are contiguous
    pieces of the sequence. *)
Lemma elem_of_ngrams {A} (l : list A) (n : nat) (g : list A) :
  g ∈ ngrams l n → length g = n ∧ ∃ pre suf, l = pre ++ g ++ suf.
Proof.
  induction l as [|x l IH]; simpl; [by intros ?%elem_of_nil|].
  case_decide as Hn; [|by intros ?%elem_of_nil].
  intros [->|Hin]%elem_of_cons.
  - split; [rewrite length_take; simpl; lia|].
    exists [], (drop n (x :: l)). by rewrite (take_drop n (x :: l)).
  - destruct (IH Hin) as [Hlen (pre & suf & ->)].
    split; [done|]. by exists (x :: pre), suf.
Qed.

Lemma lookup_Counter (items : list (list string)) k :
  Counter items !! k
  = if decide (Z.of_nat (length (filter (λ g, g = k) items)) = 0) then None
    else Some (Z.of_nat (length (filter (λ g, g = k) items))).
Proof.
  induction items as [|x items IH] using rev_ind; [done|].
  unfold Counter in *. rewrite foldl_app. simpl.
  rewrite filter_app, length_app, filter_cons, filter_nil.
  destruct (decide (x = k)) as [->|Hne].
  - rewrite lookup_insert_eq, IH. simpl length.
    repeat case_decide; simpl; try lia; f_equal; lia.
  - rewrite lookup_insert_ne by done. rewrite IH. simpl length.
    repeat case_decide; simpl; try lia; f_equal; lia.
Qed.

Lemma default_Counter (items : list (list string)) k :
  default 0 (Counter items !! k) = Z.of_nat (length (filter (λ g, g = k) items)).
Proof. rewrite lookup_Counter. by case_decide. Qed.

Lemma filter_eq_nil {A} `{EqDecision A} (k : A) (l : list A) :
  k ∉ l → filter (λ g, g = k) l = [].
Proof.
  induction l as [|g l IH]; [done|]. intros Hk.
  rewrite filter_cons. destruct (decide (g = k)) as [->|?].
  - destruct Hk. left.
  - apply IH. intros ?. apply Hk. by right.
Qed.

Lemma count_ngrams_other (tokens k : list string) n :
  length k ≠ n → Z.of_nat (length (filter (λ g, g = k) (ngrams tokens n))) = 0.
Proof.
  intros Hne. rewrite filter_eq_nil; [done|].
  by intros [Hlen _]%elem_of_ngrams.
Qed.

(** Counters whose counts are all positive. *)
Lemma Counter_pos items : map_Forall (λ _ v, 1 ≤ v) (Counter items).
Proof.
  intros k v. rewrite lookup_Counter. case_decide; [done|].
  intros [= <-]. lia.
Qed.

Lemma update_pos c d :
  map_Forall (λ _ v, 1 ≤ v) c → map_Forall (λ _ v, 1 ≤ v) d →
  map_Forall (λ _ v, 1 ≤ v) (update c d).
Proof.
  intros Hc Hd k v. rewrite lookup_update.
  destruct (c !! k) as [x|] eqn:Hx, (d !! k) as [y|] eqn:Hy;
    intros [= <-]; try apply Hc in Hx; try apply Hd in Hy; simpl in *; lia.
Qed.

Lemma default_update c d k :
  default 0 (update c d !! k) = default 0 (c !! k) + default 0 (d !! k).
Proof.
  rewrite lookup_update. destruct (c !! k), (d !! k); simpl; lia.
Qed.

Lemma foldl_update_pos {A} (g : A → gmap (list string) Z) (l : list A) c :
  map_Forall (λ _ v, 1 ≤ v) c →
  (∀ x, map_Forall (λ _ v, 1 ≤ v) (g x)) →
  map_Forall (λ _ v, 1 ≤ v) (foldl (λ c x, update c (g x)) c l).
Proof.
  intros Hc Hg. revert c Hc. induction l as [|x l IH]; intros c Hc; [done|].
  simpl. apply IH. by apply update_pos.
Qed.

Lemma default_foldl_update {A} (g : A → gmap (list string) Z) (l : list A) c k :
  default 0 (foldl (λ c x, update c (g x)) c l !! k)
  = default 0 (c !! k) + foldr (λ x acc, default 0 (g x !! k) + acc) 0 l.
Proof.
  revert c. induction l as [|x l IH]; intros c; simpl; [lia|].
  rewrite IH, default_update. lia.
Qed.

(** A sum in which only the term at [a] can be non-zero. *)
Lemma sum_single (l : list Z) (f : Z → Z) a :
  NoDup l → (∀ x, x ∈ l → x ≠ a → f x = 0) →
  foldr (λ x acc, f x + acc) 0 l = if decide (a ∈ l) then f a else 0.
Proof.
  induction 1 as [|x l Hx Hl IH]; intros Hf.
  - destruct (decide (a ∈ [])) as [Hin|_]; [by apply elem_of_nil in Hin|done].
  - change (foldr (λ x acc, f x + acc) 0 (x :: l))
      with (f x + foldr (λ x acc, f x + acc) 0 l).
    rewrite IH by (intros y ? ?; apply Hf; [by right|done]).
    destruct (decide (x = a)) as [->|Hne].
    + destruct (decide (a ∈ l)); [done|].
      destruct (decide (a ∈ a :: l)) as [_|Hn]; [lia|]. destruct Hn. left.
    + rewrite (Hf x) by (done || left).
      destruct (decide (a ∈ l)) as [Hin|Hin],
               (decide (a ∈ x :: l)) as [Hin'|Hin']; try done.
      * destruct Hin'. by right.
      * by apply elem_of_cons in Hin' as [?|?].
Qed.

Lemma line_counts_pos max_n line :
  map_Forall (λ _ v, 1 ≤ v) (line_counts max_n line).
Proof.
  unfold line_counts, count_line.
  apply (foldl_update_pos
           (λ n, Counter (ngrams (split line) (Z.to_nat n)))); [done|].
  intros n. apply Counter_pos.
Qed.

(** The count one line gives a key. *)
Lemma default_line_counts max_n line k :
  default 0 (line_counts max_n line !! k)
  = if decide (1 ≤ Z.of_nat (length k) ≤ max_n)
    then occurrences k (split line) else 0.
Proof.
  unfold line_counts, count_line.
  rewrite (default_foldl_update
             (λ n, Counter (ngrams (split line) (Z.to_nat n)))).
  rewrite lookup_empty. simpl default.
  rewrite (sum_single _
             (λ n, default 0 (Counter (ngrams (split line) (Z.to_nat n)) !! k))
             (Z.of_nat (length k))).
  - rewrite default_Counter, Nat2Z.id. unfold occurrences.
    destruct (decide (Z.of_nat (length k) ∈ seqZ 1 max_n)) as [Hin|Hin];
      rewrite elem_of_seqZ in Hin.
    + by rewrite decide_True by lia.
    + by rewrite decide_False by lia.
  - apply NoDup_seqZ.
  - intros n Hn%elem_of_seqZ Hne. rewrite default_Counter.
    apply count_ngrams_other. lia.
Qed.

Lemma foldl_count_line max_n c corpus :
  foldl (count_line max_n) c corpus
  = update c (foldl (count_line max_n) ∅ corpus).
Proof.
  revert c. induction corpus as [|line corpus IH]; intros c; simpl.
  - by rewrite update_comm, update_empty_l.
  - rewrite IH, (IH (count_line max_n ∅ line)), !count_line_update.
    by rewrite update_empty_l, update_assoc.
Qed.

Lemma corpus_to_ngrams_cons line corpus max_n :
  corpus_to_ngrams (line :: corpus) max_n
  = update (line_counts max_n line) (corpus_to_ngrams corpus max_n).
Proof.
  unfold corpus_to_ngrams. simpl.
  by rewrite foldl_count_line, count_line_update, update_empty_l.
Qed.

Lemma corpus_to_ngrams_pos corpus max_n :
  map_Forall (λ _ v, 1 ≤ v) (corpus_to_ngrams corpus max_n).
Proof.
  induction corpus as [|line corpus IH]; [done|].
  rewrite corpus_to_ngrams_cons. apply update_pos; [|done].
  apply line_counts_pos.
Qed.

(** The count a corpus gives a key. *)
Lemma default_corpus_to_ngrams corpus max_n k :
  default 0 (corpus_to_ngrams corpus max_n !! k)
  = if decide (1 ≤ Z.of_nat (length k) ≤ max_n)
    then total_occurrences k corpus else 0.
Proof.
  induction corpus as [|line corpus IH].
  { unfold corpus_to_ngrams. simpl. rewrite lookup_empty. by case_decide. }
  rewrite corpus_to_ngrams_cons, default_update, IH, default_line_counts.
  simpl. case_decide; lia.
Qed.

Lemma lookup_corpus_to_ngrams corpus max_n key count :
  corpus_to_ngrams corpus max_n !! key = Some count
  ↔ 1 ≤ Z.of_nat (length key) ≤ max_n
    ∧ count = total_occurrences key corpus
    ∧ 1 ≤ count.
Proof.
  pose proof (default_corpus_to_ngrams corpus max_n key) as Hd.
  pose proof (corpus_to_ngrams_pos corpus max_n key) as Hpos.
  destruct (corpus_to_ngrams corpus max_n !! key) as [v|]; simpl in Hd.
  - specialize (Hpos v eq_refl). simpl in Hpos. case_decide.
    + split; [intros [= <-]; lia|intros (_ & -> & _); by f_equal].
    + lia.
  - split; [done|]. intros (? & -> & ?). rewrite decide_True in Hd by done. lia.
Qed.

Lemma occurrences_pos key tokens :
  1 ≤ occurrences key tokens → ∃ pre suf, tokens = pre ++ key ++ suf.
Proof.
  unfold occurrences. intros Hocc.
  destruct (filter (λ g, g = key) (ngrams tokens (length key)))
    as [|g l] eqn:Hf; [simpl in Hocc; lia|].
  assert (g ∈ filter (λ g, g = key) (ngrams tokens (length key))) as Hin
    by (rewrite Hf; left).
  apply list_elem_of_filter in Hin as [-> Hin].
  by apply elem_of_ngrams in Hin as [_ ?].
Qed.

Lemma occurrences_nonneg key tokens : 0 ≤ occurrences key tokens.
Proof. unfold occurrences. lia. Qed.

Lemma total_occurrences_pos key corpus :
  1 ≤ total_occurrences key corpus →
  ∃ line pre suf, line ∈ corpus ∧ split line = pre ++ key ++ suf.
Proof.
  induction corpus as [|line corpus IH]; simpl; [lia|]. intros Hpos.
  destruct (Z.lt_ge_cases (occurrences key (split line)) 1) as [Hz|Hocc].
  - destruct IH as (l & pre & suf & Hin & Hl); [lia|].
    exists l, pre, suf. split; [by right|done].
  - apply occurrences_pos in Hocc as (pre & suf & Hl).
    exists line, pre, suf. split; [left|done].
Qed.

(** A key of the counter of a corpus is a window of the tokens of a line. *)
Lemma key_in_line corpus max_n key count :
  corpus_to_ngrams corpus max_n !! key = Some count →
  ∃ line pre suf, line ∈ corpus ∧ split line = pre ++ key ++ suf.
Proof.
  intros (_ & -> & Hpos)%lookup_corpus_to_ngrams.
  by apply total_occurrences_pos.
Qed.

Lemma key_tokens corpus max_n key count :
  corpus_to_ngrams corpus max_n !! key = Some count →
  Forall (λ w, is_token w = true) key.
Proof.
  intros (line & pre & suf & _ & Hl)%key_in_line.
  pose proof (CandidateShape.split_tokens line) as Htok.
  rewrite Hl in Htok. by apply Forall_app in Htok as [_ [? _]%Forall_app].
Qed.

End CounterMore.

(** X14.  The counter [corpus_to_ngrams] returns has an entry for a tuple
    exactly when the tuple has between 1 and [max_n] tokens and occurs in
    the corpus, and the count is the number of its occurrences as a window
    of consecutive tokens, summed over the lines. *)
Theorem corpus_to_ngrams_counts (corpus : list string) (max_n : Z)
    (key : list string) (count : Z) :
  corpus_to_ngrams corpus max_n !! key = Some count
  ↔ 1 ≤ Z.of_nat (length key) ≤ max_n
    ∧ count = total_occurrences key corpus
    ∧ 1 ≤ count.
Proof. apply CounterMore.lookup_corpus_to_ngrams. Qed.

(** X15.  Counting is additive: the counter of two corpora put one after
    the other is the counter of the first updated by the counter of the
    second. *)
Theorem corpus_to_ngrams_app (corpus1 corpus2 : list string) (max_n : Z) :
  corpus_to_ngrams (corpus1 ++ corpus2) max_n
  = update (corpus_to_ngrams corpus1 max_n) (corpus_to_ngrams corpus2 max_n).
Proof.
  unfold corpus_to_ngrams. rewrite foldl_app.
  apply CounterMore.foldl_count_line.
Qed.

(** X16.  Every key of the counter is a window of consecutive tokens of
    some line of the corpus; its tokens are non-empty and free of
    whitespace, so that joining them with single spaces and splitting the
    phrase gives the key back. *)
Theorem counter_keys_are_phrases (corpus : list string) (max_n : Z)
    (key : list string) (count : Z) :
  corpus_to_ngrams corpus max_n !! key = Some count →
  (∃ line pre suf, line ∈ corpus ∧ split line = pre ++ key ++ suf)
  ∧ Forall (λ w, is_token w = true) key
  ∧ split (join " " key) = key.
Proof.
  intros Hkey. split; [by eapply CounterMore.key_in_line|].
  pose proof (CounterMore.key_tokens _ _ _ _ Hkey) as Htok.
  split; [done|]. by apply CandidateFacts.split_phrase_of.
Qed.

Lemma counter_keys_are_phrases_witness :
  corpus_to_ngrams sample_corpus 2 !! ["to"; "be"] = Some 4
  ∧ (∃ line pre suf,
       line ∈ sample_corpus ∧ split line = pre ++ ["to"; "be"] ++ suf)
  ∧ Forall (λ w, is_token w = true) ["to"; "be"]
  ∧ split (join " " ["to"; "be"]) = ["to"; "be"].
Proof.
  assert (corpus_to_ngrams sample_corpus 2 !! ["to"; "be"] = Some 4) as Hkey
    by (vm_compute; reflexivity).
  split; [exact Hkey|].
  exact (counter_keys_are_phrases sample_corpus 2 ["to"; "be"] 4 Hkey).
Defined.

(** X17.  Raising [max_n] only adds entries: every entry of the counter for
    [max_n] is an entry, with the same count, of the counter for a larger
    bound. *)
Theorem corpus_to_ngrams_mono (corpus : list string) (max_n max_n' : Z) :
  max_n ≤ max_n' →
  corpus_to_ngrams corpus max_n ⊆ corpus_to_ngrams corpus max_n'.
Proof.
  intros Hle. apply map_subseteq_spec. intros key count.
  rewrite !CounterMore.lookup_corpus_to_ngrams. intros (? & ? & ?).
  split; [lia|done].
Qed.

Lemma corpus_to_ngrams_mono_witness :
  1 ≤ 3
  ∧ corpus_to_ngrams sample_corpus 1 ⊆ corpus_to_ngrams sample_corpus 3.
Proof.
  assert (1 ≤ 3) as Hle by lia.
  split; [exact Hle|]. exact (corpus_to_ngrams_mono sample_corpus 1 3 Hle).
Defined.

(** ** The counter, the ranker and the engine together *)

Module PipelineFacts.
Import PyFacts CandidateFacts.

(** A row of the ranking of a corpus, with the key it comes from. *)
Lemma ranked_key corpus max_n n_to_keep r :
  r ∈ get_best_phrases_to_shorten (corpus_to_ngrams corpus max_n) n_to_keep →
  ∃ key, corpus_to_ngrams corpus max_n !! key = Some (row_count r)
         ∧ Forall (λ w, is_token w = true) key
         ∧ row_phrase r = phrase_of key
         ∧ 3 < row_count r
         ∧ 2 ≤ len (row_phrase r).
Proof.
  unfold get_best_phrases_to_shorten.
  intros Hin%RankerFacts.elem_of_list_slice_to.
  apply RankerFacts.elem_of_ranking in Hin as (key & count & Hkey & Hrow).
  apply RankerFacts.phrase_row_Some in Hrow as (Hcount & Hlen & ->).
  exists key. unfold row_count, row_phrase. simpl.
  split; [done|]. split; [by eapply CounterMore.key_tokens|done].
Qed.

(** Token tuples with the same phrase string are equal. *)
Lemma phrase_of_inj key key' :
  Forall (λ w, is_token w = true) key →
  Forall (λ w, is_token w = true) key' →
  phrase_of key = phrase_of key' → key = key'.
Proof.
  intros Hk Hk' Heq.
  by rewrite <-(split_phrase_of key), <-(split_phrase_of key'), Heq.
Qed.

Lemma phrase_row_phrase key count r :
  phrase_row (key, count) = Some r → row_phrase r = phrase_of key.
Proof. by intros (_ & _ & ->)%RankerFacts.phrase_row_Some. Qed.

(** Items with distinct token tuples as keys give rows with distinct
    phrases. *)
Lemma NoDup_phrases (items : list (list string * Z)) :
  NoDup items.*1 →
  Forall (λ item, Forall (λ w, is_token w = true) item.1) items →
  NoDup (row_phrase <$> omap phrase_row items).
Proof.
  induction items as [|[key count] items IH]; [constructor|].
  rewrite fmap_cons.
  intros [Hnotin Hnodup]%NoDup_cons [Hkey Htok]%Forall_cons.
  simpl in Hnotin, Hkey.
  change (omap phrase_row ((key, count) :: items))
    with (match phrase_row (key, count) with
          | Some r => r :: omap phrase_row items
          | None => omap phrase_row items
          end).
  destruct (phrase_row (key, count)) as [r|] eqn:Hrow; [|by apply IH].
  rewrite fmap_cons. apply NoDup_cons. split; [|by apply IH].
  intros (r' & Heq & Hin)%list_elem_of_fmap.
  apply list_elem_of_omap in Hin as ([key' count'] & Hitem & Hrow').
  apply phrase_row_phrase in Hrow, Hrow'. rewrite Hrow, Hrow' in Heq.
  rewrite Forall_forall in Htok.
  apply phrase_of_inj in Heq; [|done|by apply (Htok (key', count'))].
  subst key'. apply Hnotin, list_elem_of_fmap. by exists (key, count').
Qed.

Lemma NoDup_list_slice_to {A} (l : list A) k :
  NoDup l → NoDup (list_slice l None (Some k)).
Proof.
  assert (∀ n, NoDup l → NoDup (take n l)) as Htake.
  { intros n Hl. rewrite <-(take_drop n l) in Hl.
    by apply NoDup_app in Hl as [? _]. }
  intros Hl. destruct (Z.lt_ge_cases k 0).
  - rewrite RankerFacts.list_slice_to_neg by done. by apply Htake.
  - rewrite RankerFacts.list_slice_to by done. by apply Htake.
Qed.

Lemma fmap_list_slice_to {A B} (f : A → B) (l : list A) k :
  f <$> list_slice l None (Some k) = list_slice (f <$> l) None (Some k).
Proof.
  destruct (Z.lt_ge_cases k 0).
  - rewrite !RankerFacts.list_slice_to_neg by done.
    by rewrite fmap_take, length_fmap.
  - rewrite !RankerFacts.list_slice_to by done. by rewrite fmap_take.
Qed.

End PipelineFacts.

(** X18.  The engine never raises on the ranking of a corpus: whatever the
    corpus, the bounds and the tables, [match_abbrevs_to_phrases] returns
    on what [get_best_phrases_to_shorten] gives for the counter of
    [corpus_to_ngrams]. *)
Theorem pipeline_returns (corpus : list string) (max_n n_to_keep : Z)
    (σ : store) :
  succeeds
    (match_abbrevs_to_phrases
       (get_best_phrases_to_shorten (corpus_to_ngrams corpus max_n) n_to_keep)
       σ).
Proof.
  unfold match_abbrevs_to_phrases. apply EngineRuns.assign_rows_succeeds.
  intros r Hin. right. apply EngineCalls.get_possible_abbrevs_succeeds. right.
  apply PipelineFacts.ranked_key in Hin as (key & _ & Htok & Hphrase & _ & Hlen).
  rewrite Hphrase in *.
  rewrite CandidateFacts.replace_space_empty_phrase_of by done.
  by apply CandidateFacts.len_phrase_of.
Qed.

(** X19.  In the ranking of a corpus the count of a row is the number of
    occurrences in the corpus of the tokens of its phrase: splitting the
    phrase gives the key under which the counter holds that count, and
    the count is at least 4. *)
Theorem ranked_count_is_occurrences (corpus : list string)
    (max_n n_to_keep : Z) (r : row) :
  r ∈ get_best_phrases_to_shorten (corpus_to_ngrams corpus max_n) n_to_keep →
  corpus_to_ngrams corpus max_n !! split (row_phrase r) = Some (row_count r)
  ∧ row_count r = total_occurrences (split (row_phrase r)) corpus
  ∧ 4 ≤ row_count r
  ∧ Z.of_nat (length (split (row_phrase r))) ≤ max_n.
Proof.
  intros (key & Hkey & Htok & -> & Hcount & _)%PipelineFacts.ranked_key.
  rewrite CandidateFacts.split_phrase_of by done.
  split; [done|].
  apply CounterMore.lookup_corpus_to_ngrams in Hkey as (? & ? & ?).
  split; [done|]. split; lia.
Qed.

Lemma ranked_count_is_occurrences_witness :
  (12, "to be", 5, 4)
  ∈ get_best_phrases_to_shorten (corpus_to_ngrams sample_corpus 2) 5
  ∧ corpus_to_ngrams sample_corpus 2 !! split (row_phrase (12, "to be", 5, 4))
    = Some (row_count (12, "to be", 5, 4))
  ∧ row_count (12, "to be", 5, 4)
    = total_occurrences (split (row_phrase (12, "to be", 5, 4))) sample_corpus
  ∧ 4 ≤ row_count (12, "to be", 5, 4)
  ∧ Z.of_nat (length (split (row_phrase (12, "to be", 5, 4)))) ≤ 2.
Proof.
  assert ((12, "to be", 5, 4)
          ∈ get_best_phrases_to_shorten (corpus_to_ngrams sample_corpus 2) 5)
    as Hin.
  { assert (get_best_phrases_to_shorten (corpus_to_ngrams sample_corpus 2) 5
            = [(12, "to be", 5, 4); (0, "to", 2, 4); (0, "be", 2, 4)]) as ->
      by (vm_compute; reflexivity).
    left. }
  split; [exact Hin|].
  exact (ranked_count_is_occurrences sample_corpus 2 5 _ Hin).
Defined.

(** X20.  No phrase occurs twice in the ranking of a corpus. *)
Theorem ranked_phrases_distinct (corpus : list string) (max_n n_to_keep : Z) :
  NoDup (row_phrase
         <$> get_best_phrases_to_shorten (corpus_to_ngrams corpus max_n)
               n_to_keep).
Proof.
  unfold get_best_phrases_to_shorten.
  rewrite PipelineFacts.fmap_list_slice_to.
  apply PipelineFacts.NoDup_list_slice_to.
  rewrite (SortFacts.sorted_reverse_perm _).
  apply PipelineFacts.NoDup_phrases; [apply NoDup_fst_map_to_list|].
  apply Forall_forall. intros [key count] Hin%elem_of_map_to_list.
  by eapply CounterMore.key_tokens.
Qed.

(** ** [fix_grammer] *)

Module TextFacts.
Import PyFacts.

Lemma split_space_nonempty s : split_space s ≠ [].
Proof.
  induction s as [|c s IH]; simpl; [done|].
  destruct (Ascii.eqb c " "); [done|]. by destruct (split_space s).
Qed.

(** Joining the pieces by the space gives the string back. *)
Lemma join_split_space s : join " " (split_space s) = s.
Proof.
  induction s as [|c s IH]; [done|]. simpl.
  pose proof (split_space_nonempty s) as Hne.
  destruct (split_space s) as [|w ws]; [done|].
  destruct (Ascii.eqb_spec c " ") as [->|Hc].
  - by rewrite CandidateFacts.join_cons, IH.
  - destruct ws as [|w' ws].
    + simpl in *. by rewrite IH.
    + rewrite CandidateFacts.join_cons in *.
      change (String c w +:+ " " +:+ join " " (w' :: ws))
        with (String c (w +:+ " " +:+ join " " (w' :: ws))).
      by rewrite IH.
Qed.

Lemma space_free_empty : space_free EmptyString.
Proof. unfold space_free. simpl. apply not_elem_of_nil. Qed.

Lemma space_free_cons c w :
  space_free (String c w) ↔ c ≠ " "%char ∧ space_free w.
Proof.
  unfold space_free. simpl. rewrite not_elem_of_cons.
  split; intros [? ?]; split; done || congruence.
Qed.

Lemma split_space_free s : Forall space_free (split_space s).
Proof.
  induction s as [|c s IH]; simpl.
  { repeat constructor. apply space_free_empty. }
  destruct (Ascii.eqb_spec c " ") as [->|Hc].
  - constructor; [apply space_free_empty|done].
  - destruct (split_space s) as [|w ws].
    + repeat constructor. apply space_free_cons. split; [done|].
      apply space_free_empty.
    + apply Forall_cons in IH as [Hw Hws]. constructor; [|done].
      by apply space_free_cons.
Qed.

Lemma split_space_word w : space_free w → split_space w = [w].
Proof.
  induction w as [|c w IH]; [done|].
  intros [Hc Hw]%space_free_cons. simpl.
  destruct (Ascii.eqb_spec c " ") as [->|_]; [done|]. by rewrite IH.
Qed.

Lemma split_space_word_sep w s :
  space_free w → split_space (w +:+ " " +:+ s) = w :: split_space s.
Proof.
  change (" " +:+ s) with (String " " s).
  induction w as [|c w IH].
  - intros _. by change (EmptyString +:+ String " " s) with (String " " s).
  - intros [Hc Hw]%space_free_cons.
    change (String c w +:+ String " " s) with (String c (w +:+ String " " s)).
    simpl. destruct (Ascii.eqb_spec c " ") as [->|_]; [done|].
    by rewrite IH.
Qed.

(** Splitting what was joined gives the words back, if none has a space. *)
Lemma split_space_join ws :
  ws ≠ [] → Forall space_free ws → split_space (join " " ws) = ws.
Proof.
  intros Hne Hws. induction Hws as [|w ws Hw Hws IH]; [done|].
  destruct ws as [|w' ws]; [by apply split_space_word|].
  rewrite CandidateFacts.join_cons, split_space_word_sep by done.
  by rewrite IH.
Qed.

Lemma lookup_fixes w v :
  fixes !! w = Some v
  ↔ (w = "i" ∧ v = "I") ∨ (w = "dont" ∧ v = "don't")
    ∨ (w = "doesnt" ∧ v = "doesn't").
Proof.
  unfold fixes. rewrite !lookup_insert_Some, lookup_singleton_Some. split.
  - intros [[<- <-]|[_ [[<- <-]|[_ [<- <-]]]]]; eauto.
  - intros [[-> ->]|[[-> ->]|[-> ->]]];
      [by left|right; split; [done|by left]|].
    right. split; [done|]. right. by split.
Qed.

Lemma fix_word_space_free w : space_free w → space_free (fix_word w).
Proof.
  unfold fix_word. destruct (fixes !! w) as [v|] eqn:Hv; [|done].
  intros _. apply lookup_fixes in Hv as [[_ ->]|[[_ ->]|[_ ->]]];
    by apply (bool_decide_unpack _).
Qed.

Lemma fix_word_fixed w : fix_word w = w ↔ fixes !! w = None.
Proof.
  unfold fix_word. destruct (fixes !! w) as [v|] eqn:Hv; [|done].
  simpl. split; [|done]. intros ->.
  by apply lookup_fixes in Hv as [[-> ?]|[[-> ?]|[-> ?]]].
Qed.

Lemma fix_word_idemp w : fix_word (fix_word w) = fix_word w.
Proof.
  apply fix_word_fixed. unfold fix_word.
  destruct (fixes !! w) as [v|] eqn:Hv; [|done]. simpl.
  by apply lookup_fixes in Hv as [[_ ->]|[[_ ->]|[_ ->]]].
Qed.

Lemma split_space_fix_grammer text :
  split_space (fix_grammer text) = fix_word <$> split_space text.
Proof.
  unfold fix_grammer. apply split_space_join.
  - pose proof (split_space_nonempty text). by destruct (split_space text).
  - apply Forall_fmap. eapply Forall_impl; [apply split_space_free|].
    intros w. apply fix_word_space_free.
Qed.

End TextFacts.

(** X21.  [fix_grammer] keeps the spacing: cut at the spaces, its result
    has the pieces of the text in the same places, each replaced by its
    entry in [fixes] if it has one. *)
Theorem fix_grammer_words (text : string) :
  split_space (fix_grammer text) = fix_word <$> split_space text.
Proof. apply TextFacts.split_space_fix_grammer. Qed.

(** X22.  [fix_grammer] is idempotent. *)
Theorem fix_grammer_idempotent (text : string) :
  fix_grammer (fix_grammer text) = fix_grammer text.
Proof.
  unfold fix_grammer at 1. rewrite TextFacts.split_space_fix_grammer.
  rewrite <-list_fmap_compose. unfold fix_grammer. f_equal.
  apply list_fmap_ext. intros _ w _. apply TextFacts.fix_word_idemp.
Qed.

(** X23.  [fix_grammer] returns the text unchanged exactly when none of its
    pieces between spaces is a key of [fixes]. *)
Theorem fix_grammer_unchanged_iff (text : string) :
  fix_grammer text = text
  ↔ ∀ w, w ∈ split_space text → fixes !! w = None.
Proof.
  split.
  - intros Heq w Hin.
    pose proof (TextFacts.split_space_fix_grammer text) as Hwords.
    rewrite Heq in Hwords. apply TextFacts.fix_word_fixed.
    apply list_elem_of_lookup in Hin as [i Hi].
    assert ((fix_word <$> split_space text) !! i = Some (fix_word w)) as Hf
      by by rewrite list_lookup_fmap, Hi.
    rewrite <-Hwords, Hi in Hf. by injection Hf.
  - intros Hall. rewrite <-(TextFacts.join_split_space text) at 2.
    unfold fix_grammer. f_equal.
    rewrite <-(list_fmap_id (split_space text)) at 2.
    apply list_fmap_ext. intros _ w Hin%list_elem_of_lookup_2.
    by apply TextFacts.fix_word_fixed, Hall.
Qed.

(** ** [load_corpus] *)

Module CorpusFacts.
Import PyFacts.

Lemma txt_lines_cons name lines dir :
  txt_lines ((name, lines) :: dir)
  = if endswith name ".txt" then lines ++ txt_lines dir else txt_lines dir.
Proof.
  unfold txt_lines. rewrite filter_cons.
  change ((name, lines).1) with name.
  destruct (endswith name ".txt"); by destruct (decide _).
Qed.

(** The loop of [load_corpus], started with any lines and any flag. *)
Lemma load_corpus_fold dir acc b :
  foldl (λ (acc : list string * bool) (entry : string * list string),
           if endswith entry.1 ".txt" then (acc.1 ++ entry.2, true) else acc)
        (acc, b) dir
  = (acc ++ txt_lines dir,
     b || existsb (λ entry, endswith entry.1 ".txt") dir).
Proof.
  revert acc b. induction dir as [|[name lines] dir IH]; intros acc b.
  - simpl. by rewrite app_nil_r, orb_false_r.
  - rewrite txt_lines_cons. simpl. destruct (endswith name ".txt"); simpl.
    + by rewrite IH, orb_true_r, <-app_assoc.
    + by rewrite IH.
Qed.

Lemma load_corpus_eq dir out :
  load_corpus dir out
  = (strip <$> txt_lines dir,
     if existsb (λ entry, endswith entry.1 ".txt") dir then out
     else out ++ ["Warning: No txt files found in data/corpus/"]).
Proof. unfold load_corpus. by rewrite load_corpus_fold. Qed.

Lemma existsb_Exists {A} (f : A → bool) (l : list A) :
  existsb f l = true ↔ Exists (λ x, f x = true) l.
Proof.
  induction l as [|x l IH]; simpl.
  - split; [done|]. by intros ?%Exists_nil.
  - rewrite Exists_cons, orb_true_iff, IH. done.
Qed.

Lemma elem_of_txt_lines raw dir :
  raw ∈ txt_lines dir
  ↔ ∃ name lines,
      (name, lines) ∈ dir ∧ endswith name ".txt" = true ∧ raw ∈ lines.
Proof.
  induction dir as [|[name lines] dir IH].
  - split; [by intros ?%elem_of_nil|].
    by intros (? & ? & ?%elem_of_nil & _).
  - rewrite txt_lines_cons. split.
    + destruct (endswith name ".txt") eqn:He.
      * intros [Hin|Hin]%elem_of_app.
        { exists name, lines. split; [left|done]. }
        apply IH in Hin as (n & ls & ? & ? & ?).
        exists n, ls. split; [by right|done].
      * intros (n & ls & ? & ? & ?)%IH.
        exists n, ls. split; [by right|done].
    + intros (n & ls & [[= -> ->]|Hin]%elem_of_cons & He & Hraw).
      * rewrite He. apply elem_of_app. by left.
      * assert (raw ∈ txt_lines dir) by (apply IH; eauto).
        destruct (endswith name ".txt"); [|done].
        apply elem_of_app. by right.
Qed.

Lemma txt_lines_perm dir dir' : dir ≡ₚ dir' → txt_lines dir ≡ₚ txt_lines dir'.
Proof.
  induction 1 as [|[n ls] l l' _ IH|[n ls] [n' ls'] l|l l' l'' _ IH1 _ IH2].
  - done.
  - rewrite !txt_lines_cons. destruct (endswith n ".txt"); by rewrite IH.
  - rewrite !txt_lines_cons.
    destruct (endswith n ".txt"), (endswith n' ".txt"); try done.
    apply Permutation_app_swap_app.
  - by rewrite IH1.
Qed.

Lemma existsb_perm {A} (f : A → bool) (l l' : list A) :
  l ≡ₚ l' → existsb f l = existsb f l'.
Proof.
  induction 1 as [|x l l' _ IH|x y l|l l' l'' _ IH1 _ IH2]; simpl.
  - done.
  - by rewrite IH.
  - by destruct (f x), (f y).
  - by rewrite IH1.
Qed.

(** *** Stripping and splitting *)

Lemma split_cons c s :
  split (String c s)
  = if isspace c then split s
    else match s with
         | EmptyString => [String c EmptyString]
         | String c' _ =>
             if isspace c' then String c EmptyString :: split s
             else match split s with
                  | w :: ws => String c w :: ws
                  | [] => [String c EmptyString]
                  end
         end.
Proof. by destruct s. Qed.

Lemma rstrip_cons c s :
  rstrip (String c s)
  = match rstrip s with
    | EmptyString => if isspace c then EmptyString else String c EmptyString
    | t => String c t
    end.
Proof. done. Qed.

Lemma lstrip_cons c s :
  lstrip (String c s) = if isspace c then lstrip s else String c s.
Proof. done. Qed.

Lemma lstrip_head s :
  lstrip s = EmptyString
  ∨ ∃ c t, lstrip s = String c t ∧ isspace c = false.
Proof.
  induction s as [|c s IH]; [by left|].
  rewrite lstrip_cons. destruct (isspace c) eqn:Hc; [done|].
  right. by exists c, s.
Qed.

Lemma rstrip_head s d t : rstrip s = String d t → ∃ s', s = String d s'.
Proof.
  destruct s as [|c s]; [done|]. rewrite rstrip_cons.
  destruct (rstrip s); [destruct (isspace c)|]; intros [= <- _]; eauto.
Qed.

Lemma split_lstrip s : split (lstrip s) = split s.
Proof.
  induction s as [|c s IH]; [done|].
  rewrite lstrip_cons, (split_cons c s).
  destruct (isspace c) eqn:Hc; [done|]. by rewrite split_cons, Hc.
Qed.

Lemma split_rstrip s : split (rstrip s) = split s.
Proof.
  induction s as [|c s IH]; [done|].
  rewrite rstrip_cons. destruct (rstrip s) as [|d t] eqn:Hr.
  - change (split EmptyString) with (@nil string) in IH.
    rewrite (split_cons c s), <-IH.
    destruct (isspace c) eqn:Hc; [done|].
    rewrite split_cons, Hc. destruct s as [|c' s']; [done|].
    by destruct (isspace c').
  - destruct (rstrip_head _ _ _ Hr) as [s' ->].
    rewrite (split_cons c (String d t)), (split_cons c (String d s')).
    by rewrite IH.
Qed.

Lemma split_strip s : split (strip s) = split s.
Proof. unfold strip. by rewrite split_rstrip, split_lstrip. Qed.

Lemma rstrip_rstrip s : rstrip (rstrip s) = rstrip s.
Proof.
  induction s as [|c s IH]; [done|].
  rewrite rstrip_cons. destruct (rstrip s) as [|d t] eqn:Hr.
  - destruct (isspace c) eqn:Hc; [done|].
    rewrite rstrip_cons. simpl. by rewrite Hc.
  - by rewrite (rstrip_cons c (String d t)), IH.
Qed.

Lemma lstrip_strip s : lstrip (strip s) = strip s.
Proof.
  unfold strip. destruct (lstrip_head s) as [->|(c & t & -> & Hc)]; [done|].
  rewrite rstrip_cons.
  destruct (rstrip t); rewrite ?Hc; by rewrite lstrip_cons, Hc.
Qed.

(** The counter only looks at the tokens of the lines. *)
Lemma corpus_to_ngrams_fmap (f : string → string) corpus max_n :
  (∀ line, split (f line) = split line) →
  corpus_to_ngrams (f <$> corpus) max_n = corpus_to_ngrams corpus max_n.
Proof.
  intros Hf. induction corpus as [|line corpus IH]; [done|].
  rewrite fmap_cons, !CounterMore.corpus_to_ngrams_cons, IH. f_equal.
  unfold line_counts, count_line. by rewrite Hf.
Qed.

End CorpusFacts.

(** X24.  [load_corpus] prints its warning, once, exactly when no name in
    the directory ends in ".txt", and prints nothing otherwise, even when
    every text file is empty. *)
Theorem load_corpus_warning (listdir : list (string * list string))
    (out : list string) :
  (load_corpus listdir out).2
  = if decide (Exists (λ entry, endswith entry.1 ".txt" = true) listdir)
    then out
    else out ++ ["Warning: No txt files found in data/corpus/"].
Proof.
  rewrite CorpusFacts.load_corpus_eq. simpl.
  destruct (existsb (λ entry, endswith entry.1 ".txt") listdir) eqn:He.
  - apply CorpusFacts.existsb_Exists in He. by rewrite decide_True.
  - rewrite decide_False; [done|].
    intros Hex%CorpusFacts.existsb_Exists. congruence.
Qed.

(** X25.  The lines [load_corpus] returns are the lines of the files whose
    name ends in ".txt", each stripped: files with other names give no
    line. *)
Theorem load_corpus_lines (listdir : list (string * list string))
    (out : list string) (line : string) :
  line ∈ (load_corpus listdir out).1
  ↔ ∃ name lines raw,
      (name, lines) ∈ listdir ∧ endswith name ".txt" = true
      ∧ raw ∈ lines ∧ line = strip raw.
Proof.
  rewrite CorpusFacts.load_corpus_eq. simpl. rewrite list_elem_of_fmap. split.
  - intros (raw & -> & (name & lines & ? & ? & ?)%CorpusFacts.elem_of_txt_lines).
    by exists name, lines, raw.
  - intros (name & lines & raw & ? & ? & ? & ->). exists raw. split; [done|].
    apply CorpusFacts.elem_of_txt_lines. by exists name, lines.
Qed.

(** X26.  No line [load_corpus] returns begins or ends with whitespace:
    stripping it again at either end changes nothing. *)
Theorem load_corpus_stripped (listdir : list (string * list string))
    (out : list string) (line : string) :
  line ∈ (load_corpus listdir out).1 →
  lstrip line = line ∧ rstrip line = line.
Proof.
  rewrite CorpusFacts.load_corpus_eq. simpl.
  intros (raw & -> & _)%list_elem_of_fmap. split.
  - apply CorpusFacts.lstrip_strip.
  - apply CorpusFacts.rstrip_rstrip.
Qed.

Lemma load_corpus_stripped_witness :
  "to be or not" ∈ (load_corpus sample_dir []).1
  ∧ lstrip "to be or not" = "to be or not"
  ∧ rstrip "to be or not" = "to be or not".
Proof.
  assert ("to be or not" ∈ (load_corpus sample_dir []).1) as Hin.
  { assert ((load_corpus sample_dir []).1
            = ["to be or not"; "to be"; "to be"; "to be sure"]) as ->
      by (vm_compute; reflexivity).
    left. }
  split; [exact Hin|].
  exact (load_corpus_stripped sample_dir [] "to be or not" Hin).
Defined.

(** X27.  Stripping makes no difference to the counts: the counter of the
    lines [load_corpus] returns is the counter of the lines as read. *)
Theorem load_corpus_counts (listdir : list (string * list string))
    (out : list string) (max_n : Z) :
  corpus_to_ngrams (load_corpus listdir out).1 max_n
  = corpus_to_ngrams (txt_lines listdir) max_n.
Proof.
  rewrite CorpusFacts.load_corpus_eq. simpl.
  apply CorpusFacts.corpus_to_ngrams_fmap, CorpusFacts.split_strip.
Qed.

(** X28.  The order in which the directory lists its files makes no
    difference to what is printed nor to the counter of the lines
    returned. *)
Theorem load_corpus_listdir_order (listdir listdir' : list (string * list string))
    (out : list string) (max_n : Z) :
  listdir ≡ₚ listdir' →
  (load_corpus listdir out).2 = (load_corpus listdir' out).2
  ∧ corpus_to_ngrams (load_corpus listdir out).1 max_n
    = corpus_to_ngrams (load_corpus listdir' out).1 max_n.
Proof.
  intros Hperm. rewrite !CorpusFacts.load_corpus_eq. simpl. split.
  - by rewrite (CorpusFacts.existsb_perm _ _ _ Hperm).
  - unfold corpus_to_ngrams. apply CounterFacts.foldl_count_line_perm.
    by apply fmap_Permutation, CorpusFacts.txt_lines_perm.
Qed.

Lemma load_corpus_listdir_order_witness :
  sample_dir ≡ₚ reverse sample_dir
  ∧ (load_corpus sample_dir []).2 = (load_corpus (reverse sample_dir) []).2
  ∧ corpus_to_ngrams (load_corpus sample_dir []).1 2
    = corpus_to_ngrams (load_corpus (reverse sample_dir) []).1 2.
Proof.
  assert (sample_dir ≡ₚ reverse sample_dir) as Hperm
    by (symmetry; apply reverse_Permutation).
  split; [exact Hperm|].
  exact (load_corpus_listdir_order sample_dir (reverse sample_dir) [] 2 Hperm).
Defined.
